(** * Harmonic scalar field: a shallow embedding of [ttk::HarmonicField]

    The development follows [core/base/harmonicField/HarmonicField.cpp]:
    the solver selector [findBestSolver], and the main routine [execute]
    with its constraint assembler, penalty matrix, solver dispatch, status
    logging and result materializer.

    Conventions of the embedding.
    - [SimplexId] values are integers ([Z]); signed overflow is undefined
      behaviour in C++, so arithmetic on them is checked and yields [None]
      outside the representable range.
    - The raw buffers behind [sources_], [constraints_] and
      [outputScalarFieldPointer_] are lists; an access past the end is
      undefined behaviour and yields [None].
    - The sparse containers of Eigen are finite maps from indices to
      scalars together with their dimensions; a stored entry is what Eigen
      calls a (structural) non-zero.
    - Calls that leave the routine (log messages, the thread-count knob of
      Eigen, the linear solve) are recorded, in order, in a trace. *)

From Stdlib Require Import ZArith Sorted Permutation.
From Stdlib Require QArith.
From stdpp Require Import base option list gmap strings pretty.

Local Open Scope Z_scope.

(** ** Scalars

    [execute] is a template over [scalarFieldType], instantiated at
    [double] and [float].  The routine only needs the zero of the type
    (the value of an absent sparse coefficient), addition (duplicate
    triplets are summed by [setFromTriplets]), unary minus, and the
    conversion of [pow10(logAlpha_)] to the scalar type. *)

Class Scalar (T : Type) : Type := {
  zero : T;
  add : T -> T -> T;
  opp : T -> T;
  pow10 : Z -> T
}.

(** Exact rationals, used to run the model on concrete inputs. *)
#[export] Instance Q_Scalar : Scalar QArith_base.Q := {|
  zero := QArith_base.Qmake 0 1;
  add := QArith_base.Qplus;
  opp := QArith_base.Qopp;
  pow10 := fun n => QArith_base.Qpower (QArith_base.Qmake 10 1) n
|}.

(** ** Enumerations *)

(** [ttk::SolvingMethodUserType]: what the user configures. *)
Module SolvingMethodUserType.
Inductive t : Type :=
| Cholesky
| Iterative
| Auto.
End SolvingMethodUserType.

(** [ttk::SolvingMethodType]: what the solver selector decides. *)
Module SolvingMethodType.
Inductive t : Type :=
| Cholesky
| Iterative.

#[global] Instance eq_dec : EqDecision t.
Proof. solve_decision. Defined.
End SolvingMethodType.

(** [Eigen::ComputationInfo], with the integer codes Eigen gives it. *)
Inductive ComputationInfo : Type :=
| Success
| NumericalIssue
| NoConvergence
| InvalidInput.

Definition ComputationInfo_code (i : ComputationInfo) : Z :=
  match i with
  | Success => 0
  | NumericalIssue => 1
  | NoConvergence => 2
  | InvalidInput => 3
  end.

(** The two debug priorities [execute] passes to [dMsg]. *)
Inductive debugPriority : Type :=
| infoMsg
| advancedInfoMsg.

Inductive Stream : Type :=
| cout
| cerr.

(** ** Loops *)

(** A loop whose body may hit undefined behaviour: the iterations [l] are
    run in order on the loop state. *)
Fixpoint iterM {A St : Type} (body : A -> St -> option St)
    (l : list A) (s : St) : option St :=
  match l with
  | [] => Some s
  | i :: l' =>
      match body i s with
      | Some s' => iterM body l' s'
      | None => None
      end
  end.

(** [for(i = 0; i < n; ++i)] *)
Definition for_upto {St : Type} (n : nat) (body : nat -> St -> option St)
    (s : St) : option St :=
  iterM body (seq 0 n) s.

(** ** [std::set<SimplexId>]

    An ordered set is its strictly ascending sequence of elements, which
    is what iterating from [begin()] to [end()] yields. *)
Fixpoint set_insert (x : Z) (s : list Z) : list Z :=
  match s with
  | [] => [x]
  | y :: s' =>
      if x <? y then x :: y :: s'
      else if x =? y then y :: s'
      else y :: set_insert x s'
  end.

(** The ascending sequence of the distinct elements of [l], built as the
    loop over [identifiers] builds it. *)
Definition sorted_distinct (l : list Z) : list Z :=
  foldl (fun s x => set_insert x s) [] l.

(** ** Eigen's sparse containers *)

Definition index_ok (i n : Z) : bool := (0 <=? i) && (i <? n).

Section Sparse.
Context {T : Type} `{Scalar T}.

(** [Eigen::SparseVector<T>] *)
Record SpVec : Type := mkSpVec {
  vec_size : Z;
  vec_data : gmap Z T
}.

(** [Eigen::SparseMatrix<T>] *)
Record SpMat : Type := mkSpMat {
  mat_rows : Z;
  mat_cols : Z;
  mat_data : gmap (Z * Z) T
}.

(** [SpVec v(n)]: the empty vector of size [n].  Dimensions are sizes:
    Eigen's contract starts at a non-negative one. *)
Definition SpVec_new (n : Z) : option SpVec :=
  if 0 <=? n then Some (mkSpVec n ∅) else None.

(** [SpMat m(r, c)]: the empty [r] x [c] matrix. *)
Definition SpMat_new (r c : Z) : option SpMat :=
  if (0 <=? r) && (0 <=? c) then Some (mkSpMat r c ∅) else None.

(** [v.coeff(i)]: the stored value, zero where nothing is stored. *)
Definition vec_coeff (v : SpVec) (i : Z) : T :=
  default zero (vec_data v !! i).

(** [m.coeff(i, j)] *)
Definition mat_coeff (m : SpMat) (i j : Z) : T :=
  default zero (mat_data m !! (i, j)).

(** [v.coeffRef(i) = x]: [coeffRef] requires [0 <= i < size], creates
    the entry when it is absent, and the assignment stores [x] in it. *)
Definition coeffRef_assign (v : SpVec) (i : Z) (x : T) : option SpVec :=
  if index_ok i (vec_size v)
  then Some (mkSpVec (vec_size v) (<[i := x]> (vec_data v)))
  else None.

(** One triplet of [setFromTriplets]: indices must lie inside the
    matrix; a repeated position accumulates by addition. *)
Definition add_triplet (r c : Z) (t : Z * Z * T)
    (d : gmap (Z * Z) T) : option (gmap (Z * Z) T) :=
  let '(i, j, x) := t in
  if index_ok i r && index_ok j c then
    Some (match d !! (i, j) with
          | Some old => <[(i, j) := add old x]> d
          | None => <[(i, j) := x]> d
          end)
  else None.

(** [m.setFromTriplets(begin, end)]: the previous content is dropped. *)
Definition setFromTriplets (m : SpMat) (ts : list (Z * Z * T))
    : option SpMat :=
  match iterM (add_triplet (mat_rows m) (mat_cols m)) ts ∅ with
  | Some d => Some (mkSpMat (mat_rows m) (mat_cols m) d)
  | None => None
  end.

(** [Eigen::Matrix<T, Dynamic, 1> d(m)]: a column vector built from a
    sparse matrix, which must have exactly one column. *)
Definition toDense (m : SpMat) : option (list T) :=
  if mat_cols m =? 1
  then Some ((fun i : nat => mat_coeff m (Z.of_nat i) 0)
               <$> seq 0 (Z.to_nat (mat_rows m)))
  else None.
End Sparse.

Arguments SpVec T : clear implicits.
Arguments SpMat T : clear implicits.

(** ** Build configuration and environment *)

(** What is fixed when the library is compiled: the two feature gates
    tested by the preprocessor, and the largest value of the [SimplexId]
    integer type (its declaration is not part of this file; the smallest
    value is [- SimplexId_max - 1]). *)
Record Build : Type := mkBuild {
  TTK_ENABLE_EIGEN : bool;
  TTK_ENABLE_OPENMP : bool;
  SimplexId_max : Z
}.

(** What one run takes from its environment: the order in which the
    OpenMP runtime happens to perform the iterations of the parallel copy
    loop, and the text printed for the timer reading. *)
Record Oracle : Type := mkOracle {
  omp_schedule : list nat;
  elapsedTime : string
}.

(** The calls that leave [execute], in program order. *)
Inductive Event : Type :=
| EvSetNbThreads (n : Z)
| EvMsg (s : Stream) (msg : string) (level : debugPriority)
| EvSolve (sm : SolvingMethodType.t).

(** A value of type [SimplexId], or [None] when it is not representable. *)
Definition SimplexId_val (b : Build) (z : Z) : option Z :=
  if (- SimplexId_max b - 1 <=? z) && (z <=? SimplexId_max b)
  then Some z else None.

Definition endl : string := String (Ascii.ascii_of_nat 10) EmptyString.

Section HarmonicField.
Context {T : Type} `{Scalar T}.

(** The mesh handle behind [triangulation_]. *)
Variable Triangulation : Type.

(** The operator object.  Pointer members are represented by the buffer
    they point to; [outputScalarFieldPointer_] designates the output
    buffer of the [World] below.  [threadNumber_] is inherited from the
    base class. *)
Record HarmonicField : Type := mkHarmonicField {
  vertexNumber_ : Z;
  edgeNumber_ : Z;
  constraintNumber_ : Z;
  useCotanWeights_ : bool;
  triangulation_ : Triangulation;
  sources_ : list Z;
  constraints_ : list T;
  solvingMethod_ : SolvingMethodUserType.t;
  logAlpha_ : Z;
  threadNumber_ : Z
}.

(** The same object with another constraint value buffer. *)
Definition with_constraints (hf : HarmonicField) (sf : list T)
    : HarmonicField :=
  mkHarmonicField (vertexNumber_ hf) (edgeNumber_ hf)
    (constraintNumber_ hf) (useCotanWeights_ hf) (triangulation_ hf)
    (sources_ hf) sf (solvingMethod_ hf) (logAlpha_ hf)
    (threadNumber_ hf).

(** *** Members defined outside this file

    The two Laplacian builders and the linear solve are member
    templates declared in the class header.  They are parameters here:
    the builders read the mesh (topology handle, vertex and edge
    counts); [solve] is instantiated at one Eigen solver per strategy,
    receives the Laplacian, the penalty matrix and the constraint
    vector, and gives back Eigen's status code and the solution. *)
Variable compute_laplacian_with_cotan_weights :
  Triangulation -> Z -> Z -> SpMat T.
Variable compute_laplacian : Triangulation -> Z -> Z -> SpMat T.
Variable solve :
  SolvingMethodType.t -> SpMat T -> SpMat T -> SpVec T -> Z * SpMat T.

(** *** Solver selector *)

Definition findBestSolver (b : Build) (hf : HarmonicField)
    : option SolvingMethodType.t :=
  threshold ← SimplexId_val b 500000;
  twice ← SimplexId_val b (2 * edgeNumber_ hf);
  score ← SimplexId_val b (twice + vertexNumber_ hf);
  Some (if score >? threshold then SolvingMethodType.Iterative
        else SolvingMethodType.Cholesky).

(** The [switch] on [solvingMethod_]. *)
Definition selectSolver (b : Build) (hf : HarmonicField)
    : option SolvingMethodType.t :=
  match solvingMethod_ hf with
  | SolvingMethodUserType.Auto => findBestSolver b hf
  | SolvingMethodUserType.Cholesky => Some SolvingMethodType.Cholesky
  | SolvingMethodUserType.Iterative => Some SolvingMethodType.Iterative
  end.

(** *** Constraint assembler *)

(** The loop filling [identifiersSet], then the copy of the set into
    [identifiersVec]. *)
Definition identifiersVec (hf : HarmonicField) : option (list Z) :=
  for_upto (Z.to_nat (constraintNumber_ hf))
    (fun i s =>
       match sources_ hf !! i with
       | Some id => Some (set_insert id s)
       | None => None
       end)
    [].

(** [constraints.coeffRef(identifiersVec[i]) = sf[i]] *)
Definition constraints_body (idv : list Z) (sf : list T) (i : nat)
    (v : SpVec T) : option (SpVec T) :=
  match idv !! i, sf !! i with
  | Some id, Some x => coeffRef_assign v id x
  | _, _ => None
  end.

(** The constraint vector: the body above for every position [i] of
    [identifiersVec]. *)
Definition constraintsVector (hf : HarmonicField) (idv : list Z)
    : option (SpVec T) :=
  match SpVec_new (vertexNumber_ hf) with
  | Some v0 =>
      for_upto (length idv) (constraints_body idv (constraints_ hf)) v0
  | None => None
  end.

(** The penalty value and the penalty matrix: one diagonal triplet per
    element of [identifiersVec]. *)
Definition alpha (hf : HarmonicField) : T := pow10 (logAlpha_ hf).

Definition penaltyTriplets (hf : HarmonicField) (idv : list Z)
    : list (Z * Z * T) :=
  (fun i => (i, i, alpha hf)) <$> idv.

Definition penaltyMatrix (hf : HarmonicField) (idv : list Z)
    : option (SpMat T) :=
  match SpMat_new (vertexNumber_ hf) (vertexNumber_ hf) with
  | Some p0 => setFromTriplets p0 (penaltyTriplets hf idv)
  | None => None
  end.

(** *** Status message *)

Definition infoMessage (res : Z) : string :=
  if res =? ComputationInfo_code Success
  then "[HarmonicField] Success!" +:+ endl
  else if res =? ComputationInfo_code NumericalIssue
  then "[HarmonicField] Numerical Issue!" +:+ endl
  else if res =? ComputationInfo_code NoConvergence
  then "[HarmonicField] No Convergence!" +:+ endl
  else if res =? ComputationInfo_code InvalidInput
  then "[HarmonicField] Invalid Input!" +:+ endl
  else EmptyString.

(** *** Result materializer *)

(** [outputScalarField[i] = -solDense(i, 0)] *)
Definition copy_body (solDense : list T) (i : nat) (out : list T)
    : option (list T) :=
  match solDense !! i with
  | Some x =>
      if decide (i < length out)%nat then Some (<[i := opp x]> out)
      else None
  | None => None
  end.

(** The iterations of the copy loop: in index order, or in the order
    chosen by the OpenMP runtime when the loop is parallel. *)
Definition copy_iterations (b : Build) (o : Oracle) (hf : HarmonicField)
    : list nat :=
  if TTK_ENABLE_OPENMP b then omp_schedule o
  else seq 0 (Z.to_nat (vertexNumber_ hf)).

(** Every iteration of the copy loop is performed exactly once. *)
Definition schedule_ok (b : Build) (o : Oracle) (hf : HarmonicField)
    : Prop :=
  copy_iterations b o hf ≡ₚ seq 0 (Z.to_nat (vertexNumber_ hf)).

Definition materialize (b : Build) (o : Oracle) (hf : HarmonicField)
    (sol : SpMat T) (out : list T) : option (list T) :=
  match toDense sol with
  | Some solDense =>
      iterM (copy_body solDense) (copy_iterations b o hf) out
  | None => None
  end.

(** *** The state of a run and its monad *)

Record World : Type := mkWorld {
  outputScalarField : list T;
  trace : list Event
}.

Definition M (A : Type) : Type := World -> option (A * World).

Definition ret {A : Type} (a : A) : M A := fun w => Some (a, w).

Definition bind {A B : Type} (m : M A) (k : A -> M B) : M B :=
  fun w =>
    match m w with
    | Some (a, w') => k a w'
    | None => None
    end.

(** Undefined behaviour in a pure step ends the run. *)
Definition lift {A : Type} (x : option A) : M A :=
  fun w =>
    match x with
    | Some a => Some (a, w)
    | None => None
    end.

Definition emit (e : Event) : M unit :=
  fun w => Some (tt, mkWorld (outputScalarField w) (trace w ++ [e])).

Definition dMsg (s : Stream) (msg : string) (level : debugPriority)
    : M unit :=
  emit (EvMsg s msg level).

Definition call_solve (sm : SolvingMethodType.t) (lap penalty : SpMat T)
    (constraints : SpVec T) : M (Z * SpMat T) :=
  bind (emit (EvSolve sm)) (fun _ => ret (solve sm lap penalty constraints)).

Definition update_output (f : list T -> option (list T)) : M unit :=
  fun w =>
    match f (outputScalarField w) with
    | Some out => Some (tt, mkWorld out (trace w))
    | None => None
    end.

Local Notation "'do' x <- m ; k" := (bind m (fun x => k))
  (at level 10, x name, m at level 100, k at level 200).
Local Notation "'run' m ; k" := (bind m (fun _ => k))
  (at level 10, m at level 100, k at level 200).

Definition endingMessage (o : Oracle) (hf : HarmonicField)
    (sm : SolvingMethodType.t) : string :=
  "[HarmonicField] Ending computation after " +:+ elapsedTime o +:+ "s ("
  +:+ (if useCotanWeights_ hf then "cotan weights, "
       else "discrete laplacian, ")
  +:+ (if decide (sm = SolvingMethodType.Iterative)
       then "iterative solver, " else "Cholesky, ")
  +:+ pretty (threadNumber_ hf) +:+ " thread(s))" +:+ endl.

Definition disabledMessage : string :=
  "[HarmonicField]" +:+ endl
  +:+ "[HarmonicField]" +:+ endl
  +:+ "[HarmonicField] Eigen support disabled, computation skipped!"
  +:+ endl
  +:+ "[HarmonicField] Please re-compile TTK with Eigen support to enable"
  +:+ " this feature." +:+ endl
  +:+ "[HarmonicField]" +:+ endl
  +:+ "[HarmonicField]" +:+ endl.

(** The Laplacian selected by [useCotanWeights_]. *)
Definition laplacian (hf : HarmonicField) : SpMat T :=
  if useCotanWeights_ hf
  then compute_laplacian_with_cotan_weights
         (triangulation_ hf) (vertexNumber_ hf) (edgeNumber_ hf)
  else compute_laplacian
         (triangulation_ hf) (vertexNumber_ hf) (edgeNumber_ hf).

(** *** Main routine *)

(** The events of a run that goes through the solver, in order: the
    thread-count knob (OpenMP builds), the opening message, the solve,
    its status message and the closing message. *)
Definition enabled_events (b : Build) (o : Oracle) (hf : HarmonicField)
    (sm : SolvingMethodType.t) (res : Z) : list Event :=
  (if TTK_ENABLE_OPENMP b then [EvSetNbThreads (threadNumber_ hf)] else [])
  ++ [EvMsg cout ("[HarmonicField] Beginnning computation" +:+ endl)
        advancedInfoMsg;
      EvSolve sm;
      EvMsg cout (infoMessage res) advancedInfoMsg;
      EvMsg cout (endingMessage o hf sm) infoMsg].

(** The ids the routine reads: [identifiers[0]] up to
    [identifiers[constraintNumber_ - 1]]. *)
Definition identifiers (hf : HarmonicField) : list Z :=
  take (Z.to_nat (constraintNumber_ hf)) (sources_ hf).

(** The size score of [findBestSolver] is computed without overflow. *)
Definition score_fits (b : Build) (hf : HarmonicField) : Prop :=
  500000 <= SimplexId_max b
  /\ - SimplexId_max b - 1 <= 2 * edgeNumber_ hf <= SimplexId_max b
  /\ - SimplexId_max b - 1 <= 2 * edgeNumber_ hf + vertexNumber_ hf
     <= SimplexId_max b.

(** The solution handed back by [solve] is a column with a row per
    vertex at least. *)
Definition solution_shape_ok (hf : HarmonicField) : Prop :=
  forall sm penalty constraints,
    let sol := snd (solve sm (laplacian hf) penalty constraints) in
    mat_cols sol = 1 /\ vertexNumber_ hf <= mat_rows sol.

(** What [execute] assumes of its caller, of the members it calls and
    of the OpenMP runtime; outside of it the C++ routine has no defined
    behaviour.
    - the mesh has a vertex count;
    - the id buffer and the value buffer hold [constraintNumber_]
      entries at least, and the ids read are vertices of the mesh;
    - in [Auto] mode the size score is computed without overflow;
    - the solution handed back by [solve] has the shape above;
    - the output buffer has a slot per vertex;
    - the parallel copy loop performs each iteration once. *)
Definition well_formed_call (b : Build) (o : Oracle) (hf : HarmonicField)
    (w : World) : Prop :=
  0 <= vertexNumber_ hf
  /\ (Z.to_nat (constraintNumber_ hf) <= length (sources_ hf))%nat
  /\ (Z.to_nat (constraintNumber_ hf) <= length (constraints_ hf))%nat
  /\ Forall (fun id => 0 <= id < vertexNumber_ hf) (identifiers hf)
  /\ (solvingMethod_ hf = SolvingMethodUserType.Auto -> score_fits b hf)
  /\ solution_shape_ok hf
  /\ (Z.to_nat (vertexNumber_ hf) <= length (outputScalarField w))%nat
  /\ schedule_ok b o hf.

Definition execute (b : Build) (o : Oracle) (hf : HarmonicField) : M Z :=
  if TTK_ENABLE_EIGEN b then
    run (if TTK_ENABLE_OPENMP b then emit (EvSetNbThreads (threadNumber_ hf))
         else ret tt);
    run dMsg cout ("[HarmonicField] Beginnning computation" +:+ endl)
          advancedInfoMsg;
    do idv <- lift (identifiersVec hf);
    let lap := laplacian hf in
    do constraints <- lift (constraintsVector hf idv);
    do sm <- lift (selectSolver b hf);
    do penalty <- lift (penaltyMatrix hf idv);
    do rs <- call_solve sm lap penalty constraints;
    run dMsg cout (infoMessage (fst rs)) advancedInfoMsg;
    run update_output (materialize b o hf (snd rs));
    run dMsg cout (endingMessage o hf sm) infoMsg;
    ret 0
  else
    run dMsg cerr disabledMessage infoMsg;
    ret 0.

End HarmonicField.

Arguments mkHarmonicField {T Triangulation}.
Arguments vertexNumber_ {T Triangulation} h.
Arguments edgeNumber_ {T Triangulation} h.
Arguments constraintNumber_ {T Triangulation} h.
Arguments useCotanWeights_ {T Triangulation} h.
Arguments triangulation_ {T Triangulation} h.
Arguments sources_ {T Triangulation} h.
Arguments constraints_ {T Triangulation} h.
Arguments solvingMethod_ {T Triangulation} h.
Arguments logAlpha_ {T Triangulation} h.
Arguments threadNumber_ {T Triangulation} h.
Arguments with_constraints {T Triangulation} hf sf.
Arguments findBestSolver {T Triangulation} b hf.
Arguments selectSolver {T Triangulation} b hf.
Arguments identifiersVec {T Triangulation} hf.
Arguments constraintsVector {T Triangulation} hf idv.
Arguments alpha {T _ Triangulation} hf.
Arguments penaltyTriplets {T _ Triangulation} hf idv.
Arguments penaltyMatrix {T _ Triangulation} hf idv.
Arguments copy_iterations {T Triangulation} b o hf.
Arguments schedule_ok {T Triangulation} b o hf.
Arguments materialize {T _ Triangulation} b o hf sol out.
Arguments laplacian {T Triangulation}
  compute_laplacian_with_cotan_weights compute_laplacian hf.
Arguments endingMessage {T Triangulation} o hf sm.
Arguments identifiers {T Triangulation} hf.
Arguments enabled_events {T Triangulation} b o hf sm res.
Arguments score_fits {T Triangulation} b hf.
Arguments solution_shape_ok {T Triangulation}
  compute_laplacian_with_cotan_weights compute_laplacian solve hf.
Arguments well_formed_call {T Triangulation}
  compute_laplacian_with_cotan_weights compute_laplacian solve b o hf w.
Arguments execute {T _ Triangulation}
  compute_laplacian_with_cotan_weights compute_laplacian solve b o hf _.

(** ** A small instance

    Concrete data to run the model on: rational scalars, a mesh handle
    without content, and stand-ins for the members defined outside this
    file. *)

Definition Qz (n : Z) : QArith_base.Q := QArith_base.Qmake n 1.

(** Stand-in for both Laplacian builders: the operator of the right
    dimension with nothing stored. *)
Definition demo_laplacian (_ : unit) (vertexNumber edgeNumber : Z)
    : SpMat QArith_base.Q :=
  mkSpMat vertexNumber vertexNumber ∅.

(** Stand-in for [solve]: it reports [status] and hands the constraint
    vector back as a column with one row per row of the Laplacian. *)
Definition demo_solve (status : Z) (sm : SolvingMethodType.t)
    (lap penalty : SpMat QArith_base.Q) (constraints : SpVec QArith_base.Q)
    : Z * SpMat QArith_base.Q :=
  (status,
   mkSpMat (mat_rows lap) 1
     (list_to_map ((fun p : Z * QArith_base.Q => ((p.1, 0), p.2))
                     <$> map_to_list (vec_data constraints)))).

(** Four vertices, five edges; three constraints, two of them on vertex
    2; automatic strategy, default penalty exponent, one thread. *)
Definition demo_field : HarmonicField (T := QArith_base.Q) unit :=
  mkHarmonicField 4 5 3 true tt [2; 0; 2] [Qz 7; Qz 8; Qz 9]
    SolvingMethodUserType.Auto 5 1.

(** The same mesh without constraints. *)
Definition free_field : HarmonicField (T := QArith_base.Q) unit :=
  mkHarmonicField 4 5 0 true tt [] [] SolvingMethodUserType.Auto 5 1.

(** A mesh whose size score is exactly the threshold. *)
Definition boundary_field : HarmonicField (T := QArith_base.Q) unit :=
  mkHarmonicField 4 249998 0 true tt [] [] SolvingMethodUserType.Auto 5 1.

(** Eigen and OpenMP enabled, 32-bit ids. *)
Definition demo_build : Build := mkBuild true true 2147483647.

(** No Eigen. *)
Definition bare_build : Build := mkBuild false false 2147483647.

Definition demo_oracle : Oracle := mkOracle [2; 0; 3; 1]%nat "0.1".

Definition demo_world : World (T := QArith_base.Q) :=
  mkWorld [Qz 1; Qz 1; Qz 1; Qz 1; Qz 1] [].

(** ** Construction and reconfiguration *)

(** [HarmonicField()]: counts are value-initialized to zero, the pointer
    members are null (no buffer behind them, and [null] for the mesh
    handle), cotangent weights are on, the strategy is [Auto] and the
    penalty exponent is 5.  [threadNumber_] is set by the base class. *)
Definition HarmonicField_new {T Triangulation : Type}
    (null : Triangulation) (threadNumber : Z)
    : HarmonicField (T := T) Triangulation :=
  mkHarmonicField 0 0 0 true null [] [] SolvingMethodUserType.Auto 5
    threadNumber.

(** The same object pointing to other id and value buffers. *)
Definition with_buffers {T Triangulation : Type}
    (hf : HarmonicField (T := T) Triangulation) (ids : list Z)
    (sf : list T) : HarmonicField (T := T) Triangulation :=
  mkHarmonicField (vertexNumber_ hf) (edgeNumber_ hf)
    (constraintNumber_ hf) (useCotanWeights_ hf) (triangulation_ hf)
    ids sf (solvingMethod_ hf) (logAlpha_ hf) (threadNumber_ hf).

(** The size score compared with the threshold by [findBestSolver]. *)
Definition sizeScore {T Triangulation : Type}
    (hf : HarmonicField (T := T) Triangulation) : Z :=
  2 * edgeNumber_ hf + vertexNumber_ hf.

(** ** More small instances *)

(** Ids given in ascending order, one value each. *)
Definition ascending_field : HarmonicField (T := QArith_base.Q) unit :=
  mkHarmonicField 4 5 3 false tt [0; 1; 3] [Qz 7; Qz 8; Qz 9]
    SolvingMethodUserType.Auto 5 1.

(** The constraints of [demo_field], listed in another order and with
    another repetition. *)
Definition shuffled_field : HarmonicField (T := QArith_base.Q) unit :=
  mkHarmonicField 4 5 4 true tt [0; 2; 0; 0] [Qz 7; Qz 8; Qz 9; Qz 1]
    SolvingMethodUserType.Auto 5 1.

(** A mesh too large for its size score to fit 32-bit ids, with the
    direct strategy requested explicitly. *)
Definition wide_field : HarmonicField (T := QArith_base.Q) unit :=
  mkHarmonicField 4 2000000000 3 true tt [2; 0; 2] [Qz 7; Qz 8; Qz 9]
    SolvingMethodUserType.Cholesky 5 1.

(** Two meshes above the threshold of the size heuristic. *)
Definition large_field : HarmonicField (T := QArith_base.Q) unit :=
  mkHarmonicField 3 249999 0 true tt [] [] SolvingMethodUserType.Auto 5 1.

Definition larger_field : HarmonicField (T := QArith_base.Q) unit :=
  mkHarmonicField 100000 300000 0 true tt [] []
    SolvingMethodUserType.Auto 5 1.

(** Eigen without OpenMP, 32-bit ids. *)
Definition serial_build : Build := mkBuild true false 2147483647.

(** A mesh without vertices. *)
Definition empty_field : HarmonicField (T := QArith_base.Q) unit :=
  mkHarmonicField 0 0 0 true tt [] [] SolvingMethodUserType.Iterative 5 1.

(** * Properties *)

(** ** Loops *)

Lemma iterM_ext {A St : Type} (f g : A -> St -> option St) (l : list A) :
  (forall i s, i ∈ l -> f i s = g i s) ->
  forall s, iterM f l s = iterM g l s.
Proof.
  induction l as [|i l IH]; intros Hfg s; simpl; [done|].
  rewrite Hfg by left.
  destruct (g i s) as [s'|]; [|done].
  apply IH. intros j t Hj. apply Hfg. by right.
Qed.

(** A counting loop that reads [l] at its index and updates the state
    with a total function: it is defined exactly when the indices stay
    inside [l], and then folds over the part of [l] it has read. *)
Lemma iterM_read {A St : Type} (f : A -> St -> St) (l : list A) :
  forall (n k : nat) (s : St),
    (k <= length l)%nat ->
    iterM (fun i t => match l !! i with
                      | Some x => Some (f x t)
                      | None => None
                      end) (seq k n) s
    = if decide (k + n <= length l)%nat
      then Some (foldl (fun t x => f x t) s (take n (drop k l)))
      else None.
Proof.
  induction n as [|n IH]; intros k s Hk; simpl.
  - case_decide; (done || lia).
  - destruct (l !! k) as [x|] eqn:Hx.
    + apply lookup_lt_Some in Hx as Hlt.
      rewrite IH by lia.
      rewrite (drop_S l x k Hx). simpl.
      repeat case_decide; (done || lia).
    + apply lookup_ge_None in Hx. case_decide; (done || lia).
Qed.

(** ** The ordered set *)

Lemma set_insert_elem (x y : Z) (s : list Z) :
  y ∈ set_insert x s <-> y = x \/ y ∈ s.
Proof.
  induction s as [|z s IH]; simpl.
  - rewrite list_elem_of_singleton, elem_of_nil. tauto.
  - destruct (Z.ltb_spec x z); [apply elem_of_cons|].
    destruct (Z.eqb_spec x z) as [->|]; [rewrite elem_of_cons; tauto|].
    rewrite !elem_of_cons, IH. tauto.
Qed.

Lemma set_insert_sorted (x : Z) (s : list Z) :
  StronglySorted Z.lt s -> StronglySorted Z.lt (set_insert x s).
Proof.
  induction 1 as [|z s Hs IH Hall]; simpl.
  - repeat constructor.
  - destruct (Z.ltb_spec x z).
    + constructor; [by constructor|].
      constructor; [done|].
      eapply Forall_impl; [exact Hall|]. simpl. intros; lia.
    + destruct (Z.eqb_spec x z); [by constructor|].
      constructor; [done|].
      apply Forall_forall. intros y Hy.
      apply set_insert_elem in Hy as [->|Hy]; [lia|].
      rewrite Forall_forall in Hall. by apply Hall.
Qed.

Lemma foldl_set_insert_elem (l s : list Z) (y : Z) :
  y ∈ foldl (fun s x => set_insert x s) s l <-> y ∈ l \/ y ∈ s.
Proof.
  revert s. induction l as [|x l IH]; intros s; simpl.
  - rewrite elem_of_nil. tauto.
  - rewrite IH, set_insert_elem, elem_of_cons. tauto.
Qed.

Lemma foldl_set_insert_sorted (l s : list Z) :
  StronglySorted Z.lt s ->
  StronglySorted Z.lt (foldl (fun s x => set_insert x s) s l).
Proof.
  revert s. induction l as [|x l IH]; intros s Hs; simpl; [done|].
  by apply IH, set_insert_sorted.
Qed.

Lemma sorted_distinct_elem (l : list Z) (y : Z) :
  y ∈ sorted_distinct l <-> y ∈ l.
Proof.
  unfold sorted_distinct. rewrite foldl_set_insert_elem, elem_of_nil. tauto.
Qed.

Lemma sorted_distinct_sorted (l : list Z) :
  StronglySorted Z.lt (sorted_distinct l).
Proof. apply foldl_set_insert_sorted. constructor. Qed.

Lemma StronglySorted_lt_NoDup (s : list Z) :
  StronglySorted Z.lt s -> NoDup s.
Proof.
  induction 1 as [|z s Hs IH Hall]; constructor; [|done].
  intros Hz. rewrite Forall_forall in Hall. specialize (Hall z Hz). lia.
Qed.

Lemma sorted_distinct_NoDup (l : list Z) : NoDup (sorted_distinct l).
Proof. apply StronglySorted_lt_NoDup, sorted_distinct_sorted. Qed.

(** The set has at most as many elements as were inserted, and strictly
    fewer when one was inserted twice. *)
Lemma sorted_distinct_length (l : list Z) :
  (length (sorted_distinct l) <= length l)%nat.
Proof.
  apply submseteq_length, NoDup_submseteq; [apply sorted_distinct_NoDup|].
  intros y. by rewrite sorted_distinct_elem.
Qed.

Lemma sorted_distinct_length_dup (l : list Z) :
  ~ NoDup l -> (length (sorted_distinct l) < length l)%nat.
Proof.
  intros Hdup.
  destruct (decide (length (sorted_distinct l) < length l)%nat) as [|Hge];
    [done|].
  exfalso. apply Hdup.
  assert (Hsub : sorted_distinct l ⊆+ l).
  { apply NoDup_submseteq; [apply sorted_distinct_NoDup|].
    intros y. by rewrite sorted_distinct_elem. }
  assert (Hperm : sorted_distinct l ≡ₚ l).
  { apply submseteq_length_Permutation; [done|].
    pose proof (sorted_distinct_length l). lia. }
  rewrite <- Hperm. apply sorted_distinct_NoDup.
Qed.

Lemma NoDup_lookup_not_in_drop {A : Type} (l : list A) (k : nat) (x : A) :
  NoDup l -> l !! k = Some x -> x ∉ drop (S k) l.
Proof.
  intros Hnd Hx.
  rewrite <- (take_drop k l) in Hnd.
  apply NoDup_app in Hnd as (_ & _ & Hnd).
  rewrite (drop_S l x k Hx) in Hnd.
  by apply NoDup_cons in Hnd as [? _].
Qed.

Section Properties.
Context {T : Type} `{Scalar T} {Triangulation : Type}.
Implicit Types (hf : HarmonicField (T := T) Triangulation).
Implicit Types (idv : list Z) (sf out : list T).

(** ** Constraint assembler *)

Lemma identifiersVec_spec hf :
  identifiersVec hf =
    if decide (Z.to_nat (constraintNumber_ hf) <= length (sources_ hf))%nat
    then Some (sorted_distinct
                 (take (Z.to_nat (constraintNumber_ hf)) (sources_ hf)))
    else None.
Proof.
  unfold identifiersVec, for_upto.
  rewrite (iterM_read (fun x s => set_insert x s)) by lia.
  simpl. by rewrite drop_0.
Qed.

Lemma identifiersVec_Some hf idv :
  identifiersVec hf = Some idv ->
  idv = sorted_distinct
          (take (Z.to_nat (constraintNumber_ hf)) (sources_ hf)).
Proof. rewrite identifiersVec_spec. case_decide; congruence. Qed.

(** When the id buffer is long enough the ids are collected, without
    repetition, and what holds of every id read holds of every id
    collected; there are at most [constraintNumber_] of them. *)
Lemma identifiersVec_collected hf (P : Z -> Prop) :
  (Z.to_nat (constraintNumber_ hf) <= length (sources_ hf))%nat ->
  Forall P (identifiers hf) ->
  identifiersVec hf = Some (sorted_distinct (identifiers hf))
  /\ NoDup (sorted_distinct (identifiers hf))
  /\ Forall P (sorted_distinct (identifiers hf))
  /\ (length (sorted_distinct (identifiers hf))
      <= Z.to_nat (constraintNumber_ hf))%nat.
Proof.
  intros Hids HP. split; [|split; [|split]].
  - rewrite identifiersVec_spec. by case_decide.
  - apply sorted_distinct_NoDup.
  - rewrite Forall_forall in HP |- *. intros id Hid.
    apply HP. by apply sorted_distinct_elem.
  - pose proof (sorted_distinct_length (identifiers hf)) as Hl.
    unfold identifiers in Hl at 2. rewrite length_take in Hl. lia.
Qed.

Lemma constraints_loop idv sf (vn : Z) :
  NoDup idv ->
  Forall (fun id => 0 <= id < vn) idv ->
  (length idv <= length sf)%nat ->
  forall (n k : nat) (d : gmap Z T),
    (k + n = length idv)%nat ->
    exists d',
      iterM (constraints_body idv sf) (seq k n) (mkSpVec vn d)
        = Some (mkSpVec vn d')
      /\ (forall j id, (k <= j)%nat -> idv !! j = Some id ->
            d' !! id = sf !! j)
      /\ (forall id, id ∉ drop k idv -> d' !! id = d !! id).
Proof.
  intros Hnd Hrange Hlen.
  induction n as [|n IH]; intros k d Hk; simpl.
  - exists d. split; [done|]. split; [|done].
    intros j id Hj Hid. apply lookup_lt_Some in Hid. lia.
  - destruct (lookup_lt_is_Some_2 idv k) as [idk Hidk]; [lia|].
    destruct (lookup_lt_is_Some_2 sf k) as [x Hx]; [lia|].
    unfold constraints_body at 1. rewrite Hidk, Hx.
    unfold coeffRef_assign, index_ok. simpl.
    rewrite Forall_forall in Hrange.
    pose proof (Hrange idk (list_elem_of_lookup_2 _ _ _ Hidk)) as Hr.
    replace ((0 <=? idk) && (idk <? vn)) with true
      by (symmetry; apply andb_true_iff; split;
          [apply Z.leb_le | apply Z.ltb_lt]; lia).
    destruct (IH (S k) (<[idk := x]> d)) as (d' & Hrun & Hset & Hkeep);
      [lia|].
    exists d'. split; [done|]. split.
    + intros j id Hj Hid.
      destruct (decide (j = k)) as [->|Hne].
      * assert (id = idk) as -> by congruence.
        rewrite Hkeep by (by apply NoDup_lookup_not_in_drop).
        by rewrite lookup_insert_eq.
      * apply Hset; [lia|done].
    + intros id Hid. rewrite (drop_S idv idk k Hidk) in Hid.
      apply not_elem_of_cons in Hid as [Hne Hid].
      rewrite Hkeep by done. by rewrite lookup_insert_ne.
Qed.

(** The constraint vector is defined as soon as the distinct ids are
    vertices of the mesh and the value buffer has one value for each of
    them; it stores the value at position [j] under the [j]-th id and
    nothing anywhere else. *)
Lemma constraintsVector_spec hf idv :
  NoDup idv ->
  Forall (fun id => 0 <= id < vertexNumber_ hf) idv ->
  (length idv <= length (constraints_ hf))%nat ->
  0 <= vertexNumber_ hf ->
  exists d,
    constraintsVector hf idv = Some (mkSpVec (vertexNumber_ hf) d)
    /\ (forall j id, idv !! j = Some id -> d !! id = constraints_ hf !! j)
    /\ (forall id, id ∉ idv -> d !! id = None).
Proof.
  intros Hnd Hrange Hlen Hvn.
  unfold constraintsVector, SpVec_new.
  replace (0 <=? vertexNumber_ hf) with true
    by (symmetry; apply Z.leb_le; lia).
  destruct (constraints_loop idv (constraints_ hf) (vertexNumber_ hf)
              Hnd Hrange Hlen (length idv) 0%nat ∅) as (d & Hrun & Hset & Hkeep);
    [lia|].
  exists d. split; [exact Hrun|]. split.
  - intros j id Hid. apply Hset; [lia|done].
  - intros id Hid. rewrite Hkeep by (by rewrite drop_0).
    apply lookup_empty.
Qed.

(** Only the first [length idv] values are read. *)
Lemma constraintsVector_prefix hf idv sf' :
  take (length idv) sf' = take (length idv) (constraints_ hf) ->
  constraintsVector (with_constraints hf sf') idv = constraintsVector hf idv.
Proof.
  intros Hpre. unfold constraintsVector, for_upto. simpl.
  destruct (SpVec_new (vertexNumber_ hf)) as [v0|]; [|done].
  apply iterM_ext. intros i v Hi.
  apply elem_of_seq in Hi as [_ Hi]. simpl in Hi.
  assert (Hlk : sf' !! i = constraints_ hf !! i).
  { rewrite <- (lookup_take_lt sf' (length idv) i) by lia.
    rewrite <- (lookup_take_lt (constraints_ hf) (length idv) i) by lia.
    by rewrite Hpre. }
  unfold constraints_body. by rewrite Hlk.
Qed.

(** ** Penalty matrix *)

Lemma penalty_loop (vn : Z) (a : T) idv :
  NoDup idv ->
  Forall (fun id => 0 <= id < vn) idv ->
  forall d0 : gmap (Z * Z) T,
    (forall i, i ∈ idv -> d0 !! (i, i) = None) ->
    exists d,
      iterM (add_triplet vn vn) ((fun i => (i, i, a)) <$> idv) d0 = Some d
      /\ forall i j,
           d !! (i, j)
           = if decide (i = j /\ i ∈ idv) then Some a else d0 !! (i, j).
Proof.
  induction 1 as [|x l Hx Hnd IH]; intros Hrange d0 Hfree; simpl.
  - exists d0. split; [done|]. intros i j.
    case_decide as Hd; [|done]. destruct Hd as [_ Hd].
    by apply elem_of_nil in Hd.
  - apply Forall_cons in Hrange as [Hr Hrange].
    unfold index_ok.
    replace ((0 <=? x) && (x <? vn)) with true
      by (symmetry; apply andb_true_iff; split;
          [apply Z.leb_le | apply Z.ltb_lt]; lia).
    simpl. rewrite (Hfree x) by left.
    destruct (IH Hrange (<[(x, x) := a]> d0)) as (d & Hrun & Hd).
    { intros i Hi. rewrite lookup_insert_ne by congruence.
      apply Hfree. by right. }
    exists d. split; [done|]. intros i j. rewrite Hd.
    destruct (decide (i = j /\ i ∈ l)) as [[-> Hin]|Hno].
    + rewrite decide_True; [done|]. split; [done|by right].
    + destruct (decide ((x, x) = (i, j))) as [Heq|Hne].
      * injection Heq as <- <-. rewrite lookup_insert_eq.
        rewrite decide_True; [done|]. split; [done|left].
      * rewrite lookup_insert_ne by done.
        rewrite decide_False; [done|].
        intros [-> Hin]. apply elem_of_cons in Hin as [->|Hin];
          [by apply Hne | by apply Hno].
Qed.

(** With distinct ids that are vertices of the mesh, the penalty matrix
    is defined, square of dimension [vertexNumber_], and stores [alpha]
    on the diagonal at the ids and nothing else. *)
Lemma penaltyMatrix_spec hf idv :
  NoDup idv ->
  Forall (fun id => 0 <= id < vertexNumber_ hf) idv ->
  0 <= vertexNumber_ hf ->
  exists d,
    penaltyMatrix hf idv
      = Some (mkSpMat (vertexNumber_ hf) (vertexNumber_ hf) d)
    /\ forall i j,
         d !! (i, j)
         = if decide (i = j /\ i ∈ idv) then Some (alpha hf) else None.
Proof.
  intros Hnd Hrange Hvn.
  unfold penaltyMatrix, SpMat_new, setFromTriplets, penaltyTriplets.
  replace (0 <=? vertexNumber_ hf) with true
    by (symmetry; apply Z.leb_le; lia).
  simpl.
  destruct (penalty_loop (vertexNumber_ hf) (alpha hf) idv Hnd Hrange ∅)
    as (d & Hrun & Hd); [intros; apply lookup_empty|].
  rewrite Hrun. exists d. split; [done|].
  intros i j. rewrite Hd. case_decide; [done|apply lookup_empty].
Qed.

(** ** Result materializer *)

Lemma copy_loop (x : list T) (sched : list nat) :
  forall out,
    Forall (fun i => (i < length x)%nat /\ (i < length out)%nat) sched ->
    exists out',
      iterM (copy_body x) sched out = Some out'
      /\ length out' = length out
      /\ forall i : nat,
           out' !! i
           = if decide (i ∈ sched) then opp <$> x !! i else out !! i.
Proof.
  induction sched as [|k l IH]; intros out Hall; cbn [iterM].
  - exists out. do 2 (split; [done|]). intros i.
    case_decide as Hd; [|done]. by apply elem_of_nil in Hd.
  - apply Forall_cons in Hall as [[Hkx Hko] Hall].
    destruct (lookup_lt_is_Some_2 x k Hkx) as [xk Hxk].
    unfold copy_body at 1. rewrite Hxk.
    destruct (decide (k < length out)%nat) as [_|]; [|done].
    destruct (IH (<[k := opp xk]> out)) as (out' & Hrun & Hlen & Hout).
    { eapply Forall_impl; [exact Hall|]. simpl.
      intros i [? ?]. by rewrite length_insert. }
    exists out'. split; [done|].
    split; [by rewrite Hlen, length_insert|].
    intros i. rewrite Hout.
    destruct (decide (i ∈ l)) as [Hin|Hno].
    + rewrite decide_True; [done|by right].
    + destruct (decide (i = k)) as [->|Hne].
      * rewrite list_lookup_insert_eq by done.
        rewrite decide_True by left. by rewrite Hxk.
      * rewrite list_lookup_insert_ne by done.
        rewrite decide_False; [done|].
        intros Hin. apply elem_of_cons in Hin as [?|?]; done.
Qed.

Lemma toDense_lookup (sol : SpMat T) (x : list T) (i : nat) :
  toDense sol = Some x ->
  (Z.of_nat i < mat_rows sol) ->
  x !! i = Some (mat_coeff sol (Z.of_nat i) 0).
Proof.
  unfold toDense. destruct (mat_cols sol =? 1); [|done].
  intros [= <-] Hi.
  rewrite list_lookup_fmap, lookup_seq_lt by lia. done.
Qed.

(** When the solution is a column with at least [vertexNumber_] rows and
    the output buffer has [vertexNumber_] slots, the copy loop is
    defined whatever the order of its iterations; it writes the negated
    solution in the slots below [vertexNumber_] and leaves the others
    as they were. *)
Lemma materialize_spec b o hf (sol : SpMat T) out :
  mat_cols sol = 1 ->
  vertexNumber_ hf <= mat_rows sol ->
  (Z.to_nat (vertexNumber_ hf) <= length out)%nat ->
  schedule_ok b o hf ->
  exists out',
    materialize b o hf sol out = Some out'
    /\ length out' = length out
    /\ (forall i : nat, Z.of_nat i < vertexNumber_ hf ->
          out' !! i = Some (opp (mat_coeff sol (Z.of_nat i) 0)))
    /\ (forall i : nat, vertexNumber_ hf <= Z.of_nat i ->
          out' !! i = out !! i).
Proof.
  intros Hcols Hrows Hout Hsched. unfold materialize.
  destruct (toDense sol) as [x|] eqn:Hx;
    [|unfold toDense in Hx; rewrite Hcols in Hx; done].
  assert (Hlenx : length x = Z.to_nat (mat_rows sol)).
  { unfold toDense in Hx. rewrite Hcols in Hx. simpl in Hx.
    injection Hx as <-. by rewrite length_fmap, length_seq. }
  assert (Hmem : forall i : nat,
             i ∈ copy_iterations b o hf <-> Z.of_nat i < vertexNumber_ hf).
  { intros i. unfold schedule_ok in Hsched. rewrite Hsched, elem_of_seq.
    lia. }
  destruct (copy_loop x (copy_iterations b o hf) out)
    as (out' & Hrun & Hlen & Hlook).
  { apply Forall_forall. intros i Hi. apply Hmem in Hi. lia. }
  exists out'. split; [done|]. split; [done|]. split.
  - intros i Hi. rewrite Hlook, decide_True by (by apply Hmem).
    rewrite (toDense_lookup sol x i Hx) by lia. done.
  - intros i Hi. rewrite Hlook, decide_False; [done|].
    rewrite Hmem. lia.
Qed.

(** ** Solver selector *)

Lemma SimplexId_val_fits (b : Build) (z : Z) :
  - SimplexId_max b - 1 <= z <= SimplexId_max b ->
  SimplexId_val b z = Some z.
Proof.
  intros Hz. unfold SimplexId_val.
  replace ((- SimplexId_max b - 1 <=? z) && (z <=? SimplexId_max b))
    with true; [done|].
  symmetry. apply andb_true_iff. split; apply Z.leb_le; lia.
Qed.

Lemma findBestSolver_fits b hf :
  score_fits b hf ->
  findBestSolver b hf
  = Some (if 2 * edgeNumber_ hf + vertexNumber_ hf >? 500000
          then SolvingMethodType.Iterative else SolvingMethodType.Cholesky).
Proof.
  intros (Ht & He & Hs). unfold findBestSolver.
  rewrite (SimplexId_val_fits b 500000) by lia.
  cbn [mbind option_bind].
  rewrite (SimplexId_val_fits b (2 * edgeNumber_ hf)) by lia.
  cbn [mbind option_bind].
  by rewrite (SimplexId_val_fits b _ Hs).
Qed.

Lemma selectSolver_defined b hf :
  (solvingMethod_ hf = SolvingMethodUserType.Auto -> score_fits b hf) ->
  is_Some (selectSolver b hf).
Proof.
  intros Hauto. unfold selectSolver.
  destruct (solvingMethod_ hf); [by eexists..|].
  rewrite findBestSolver_fits by auto. by eexists.
Qed.

(** ** The main routine, step by step *)

Variable compute_laplacian_with_cotan_weights :
  Triangulation -> Z -> Z -> SpMat T.
Variable compute_laplacian : Triangulation -> Z -> Z -> SpMat T.
Variable solve :
  SolvingMethodType.t -> SpMat T -> SpMat T -> SpVec T -> Z * SpMat T.

Local Abbreviation run_execute :=
  (execute compute_laplacian_with_cotan_weights compute_laplacian solve).
Local Abbreviation lap_of :=
  (laplacian compute_laplacian_with_cotan_weights compute_laplacian).
Local Abbreviation wf_call :=
  (well_formed_call compute_laplacian_with_cotan_weights
     compute_laplacian solve).

Lemma execute_disabled b o hf (w : World) :
  TTK_ENABLE_EIGEN b = false ->
  run_execute b o hf w
  = Some (0, mkWorld (outputScalarField w)
               (trace w ++ [EvMsg cerr disabledMessage infoMsg])).
Proof. intros Hgate. unfold execute. by rewrite Hgate. Qed.

Lemma execute_enabled b o hf (w : World) idv c sm P out' :
  TTK_ENABLE_EIGEN b = true ->
  identifiersVec hf = Some idv ->
  constraintsVector hf idv = Some c ->
  selectSolver b hf = Some sm ->
  penaltyMatrix hf idv = Some P ->
  materialize b o hf (snd (solve sm (lap_of hf) P c)) (outputScalarField w)
    = Some out' ->
  run_execute b o hf w
  = Some (0, mkWorld out'
               (trace w ++ enabled_events b o hf sm
                             (fst (solve sm (lap_of hf) P c)))).
Proof.
  intros Hgate Hidv Hc Hsm HP Hout.
  unfold execute, enabled_events. rewrite Hgate.
  unfold bind, lift, call_solve, dMsg, emit, update_output, ret, bind.
  destruct (TTK_ENABLE_OPENMP b); simpl;
    rewrite Hidv, Hc, Hsm, HP; simpl; rewrite Hout; simpl;
    repeat rewrite <- app_assoc; done.
Qed.

(** A run in which a step is undefined does not return: [Hrun] is then
    contradictory, once [tac] has rewritten the steps that are defined. *)
Ltac run_stops Hrun Hgate tac :=
  unfold execute in Hrun; rewrite Hgate in Hrun;
  unfold bind, lift, call_solve, dMsg, emit, update_output, ret, bind
    in Hrun;
  destruct (TTK_ENABLE_OPENMP _); simpl in Hrun; tac; done.

(** Conversely, a run that returns went through every step. *)
Lemma execute_enabled_inv b o hf (w w' : World) (r : Z) :
  TTK_ENABLE_EIGEN b = true ->
  run_execute b o hf w = Some (r, w') ->
  exists idv c sm P out',
    identifiersVec hf = Some idv
    /\ constraintsVector hf idv = Some c
    /\ selectSolver b hf = Some sm
    /\ penaltyMatrix hf idv = Some P
    /\ materialize b o hf (snd (solve sm (lap_of hf) P c))
         (outputScalarField w) = Some out'
    /\ r = 0
    /\ w' = mkWorld out'
              (trace w ++ enabled_events b o hf sm
                            (fst (solve sm (lap_of hf) P c))).
Proof.
  intros Hgate Hrun.
  destruct (identifiersVec hf) as [idv|] eqn:Hidv;
    [|run_stops Hrun Hgate ltac:(rewrite Hidv in Hrun)].
  destruct (constraintsVector hf idv) as [c|] eqn:Hc;
    [|run_stops Hrun Hgate ltac:(rewrite Hidv, Hc in Hrun)].
  destruct (selectSolver b hf) as [sm|] eqn:Hsm;
    [|run_stops Hrun Hgate ltac:(rewrite Hidv, Hc, Hsm in Hrun)].
  destruct (penaltyMatrix hf idv) as [P|] eqn:HP;
    [|run_stops Hrun Hgate ltac:(rewrite Hidv, Hc, Hsm, HP in Hrun)].
  destruct (materialize b o hf (snd (solve sm (lap_of hf) P c))
              (outputScalarField w)) as [out'|] eqn:Hout;
    [|run_stops Hrun Hgate
        ltac:(rewrite Hidv, Hc, Hsm, HP in Hrun; simpl in Hrun;
              rewrite Hout in Hrun)].
  rewrite (execute_enabled b o hf w idv c sm P out') in Hrun by done.
  injection Hrun as <- <-.
  by exists idv, c, sm, P, out'.
Qed.

(** A well-formed call goes through every step: the ids are collected,
    the constraint vector and the penalty matrix are assembled, a
    strategy is selected, the system is solved once and its solution is
    materialized. *)
Lemma execute_well_formed b o hf (w : World) :
  TTK_ENABLE_EIGEN b = true ->
  wf_call b o hf w ->
  exists c sm P out',
    let idv := sorted_distinct (identifiers hf) in
    let rs := solve sm (lap_of hf) P c in
    identifiersVec hf = Some idv
    /\ constraintsVector hf idv = Some c
    /\ selectSolver b hf = Some sm
    /\ penaltyMatrix hf idv = Some P
    /\ materialize b o hf (snd rs) (outputScalarField w) = Some out'
    /\ run_execute b o hf w
       = Some (0, mkWorld out'
                    (trace w ++ enabled_events b o hf sm (fst rs))).
Proof.
  intros Hgate (Hvn & Hids & Hsf & Hrange & Hauto & Hshape & Hout & Hsched).
  destruct (identifiersVec_collected hf _ Hids Hrange)
    as (Hidv & Hnd & Hr & Hcard).
  set (idv := sorted_distinct (identifiers hf)) in *.
  assert (Hlen : (length idv <= length (constraints_ hf))%nat) by lia.
  destruct (constraintsVector_spec hf idv Hnd Hr Hlen Hvn)
    as (dc & Hc & _).
  destruct (selectSolver_defined b hf Hauto) as [sm Hsm].
  destruct (penaltyMatrix_spec hf idv Hnd Hr Hvn) as (dp & HP & _).
  set (c := mkSpVec (vertexNumber_ hf) dc) in *.
  set (P := mkSpMat (vertexNumber_ hf) (vertexNumber_ hf) dp) in *.
  destruct (Hshape sm P c) as [Hcols Hrows].
  destruct (materialize_spec b o hf _ _ Hcols Hrows Hout Hsched)
    as (out' & Hmat & _).
  exists c, sm, P, out'. simpl.
  repeat (split; [done|]).
  by apply (execute_enabled b o hf w idv c sm P out').
Qed.

(** ** The constraint assembler, position by position *)

(** C1. The ids read from the id buffer are deduplicated into a strictly
    ascending sequence [idv] with the same elements; the constraint
    vector has a stored (structurally non-zero) entry exactly at the
    elements of [idv] and is zero everywhere else; and the entry at the
    [k]-th smallest distinct id is the value at position [k] of the
    value buffer, whatever id that value was paired with by the caller.
    The stored entries are numerically non-zero as well whenever the
    values read are. *)
Theorem constraint_assembler_by_position hf :
  0 <= vertexNumber_ hf ->
  (Z.to_nat (constraintNumber_ hf) <= length (sources_ hf))%nat ->
  (Z.to_nat (constraintNumber_ hf) <= length (constraints_ hf))%nat ->
  Forall (fun id => 0 <= id < vertexNumber_ hf) (identifiers hf) ->
  exists idv c,
    identifiersVec hf = Some idv
    /\ constraintsVector hf idv = Some c
    /\ StronglySorted Z.lt idv
    /\ (forall id, id ∈ idv <-> id ∈ identifiers hf)
    /\ vec_size c = vertexNumber_ hf
    /\ (forall i, is_Some (vec_data c !! i) <-> i ∈ idv)
    /\ (forall (k : nat) id, idv !! k = Some id ->
          exists x, constraints_ hf !! k = Some x
                    /\ vec_data c !! id = Some x
                    /\ vec_coeff c id = x)
    /\ (forall i, i ∉ idv -> vec_coeff c i = zero)
    /\ ((forall (k : nat) x, (k < length idv)%nat ->
           constraints_ hf !! k = Some x -> x <> zero) ->
        forall i, vec_coeff c i <> zero <-> i ∈ idv).
Proof.
  intros Hvn Hids Hsf Hrange.
  destruct (identifiersVec_collected hf _ Hids Hrange)
    as (Hidv & Hnd & Hr & Hcard).
  set (idv := sorted_distinct (identifiers hf)) in *.
  assert (Hlen : (length idv <= length (constraints_ hf))%nat) by lia.
  destruct (constraintsVector_spec hf idv Hnd Hr Hlen Hvn)
    as (d & Hc & Hset & Hfree).
  assert (Hval : forall (k : nat) id, idv !! k = Some id ->
            exists x, constraints_ hf !! k = Some x /\ d !! id = Some x).
  { intros k id Hk.
    destruct (lookup_lt_is_Some_2 (constraints_ hf) k) as [x Hx].
    { apply lookup_lt_Some in Hk. lia. }
    exists x. split; [done|]. by rewrite (Hset k id Hk). }
  assert (Hstored : forall i, is_Some (d !! i) <-> i ∈ idv).
  { intros i. split.
    - intros Hi. destruct (decide (i ∈ idv)) as [|Hno]; [done|].
      rewrite (Hfree i Hno) in Hi. by destruct Hi.
    - intros Hi. apply list_elem_of_lookup in Hi as [k Hk].
      destruct (Hval k i Hk) as (x & _ & Hx). by exists x. }
  exists idv, (mkSpVec (vertexNumber_ hf) d).
  split; [done|]. split; [done|].
  split; [apply sorted_distinct_sorted|].
  split; [intros id; apply sorted_distinct_elem|].
  split; [done|]. split; [exact Hstored|]. split; [|split].
  - intros k id Hk. destruct (Hval k id Hk) as (x & Hx & Hd).
    exists x. split; [done|]. split; [done|].
    unfold vec_coeff. simpl. by rewrite Hd.
  - intros i Hi. unfold vec_coeff. simpl. by rewrite (Hfree i Hi).
  - intros Hnz i. split.
    + intros Hi. destruct (decide (i ∈ idv)) as [|Hno]; [done|].
      exfalso. apply Hi. unfold vec_coeff. simpl.
      by rewrite (Hfree i Hno).
    + intros Hi. apply list_elem_of_lookup in Hi as [k Hk].
      destruct (Hval k i Hk) as (x & Hx & Hd).
      unfold vec_coeff. simpl. rewrite Hd. simpl.
      apply (Hnz k x); [by apply lookup_lt_Some in Hk|done].
Qed.

(** ** The size heuristic *)

(** C2. In [Auto] mode, when the score [2 * edgeNumber + vertexNumber]
    is computed without overflow, the selector answers; it answers
    [Iterative] exactly when the score is strictly above 500000 and
    [Cholesky] exactly when it is at or below, so that a score of
    exactly 500000 gives [Cholesky]. *)
Theorem auto_selects_by_threshold b hf :
  solvingMethod_ hf = SolvingMethodUserType.Auto ->
  score_fits b hf ->
  exists sm,
    selectSolver b hf = Some sm
    /\ (sm = SolvingMethodType.Iterative
        <-> 2 * edgeNumber_ hf + vertexNumber_ hf > 500000)
    /\ (sm = SolvingMethodType.Cholesky
        <-> 2 * edgeNumber_ hf + vertexNumber_ hf <= 500000)
    /\ (2 * edgeNumber_ hf + vertexNumber_ hf = 500000
        -> sm = SolvingMethodType.Cholesky).
Proof.
  intros Hauto Hfits. unfold selectSolver. rewrite Hauto.
  rewrite (findBestSolver_fits b hf Hfits).
  destruct (Z.gtb_spec (2 * edgeNumber_ hf + vertexNumber_ hf) 500000)
    as [Hgt|Hle].
  - exists SolvingMethodType.Iterative. split; [done|].
    split; [split; [lia|done]|]. split; [split; [done|lia]|lia].
  - exists SolvingMethodType.Cholesky. split; [done|].
    split; [split; [done|lia]|]. split; [split; [lia|done]|done].
Qed.

(** ** Return value *)

(** C3. Whatever the configuration, the input and the status reported
    by the solver, a run of [execute] that returns returns 0; it does
    return, with 0, when the sparse-solver gate is off, and also on
    every well-formed call when the gate is on. *)
Theorem execute_returns_zero b o hf (w : World) :
  (forall r w', run_execute b o hf w = Some (r, w') -> r = 0)
  /\ (TTK_ENABLE_EIGEN b = false ->
      exists w', run_execute b o hf w = Some (0, w'))
  /\ (TTK_ENABLE_EIGEN b = true -> wf_call b o hf w ->
      exists w', run_execute b o hf w = Some (0, w')).
Proof.
  split; [|split].
  - intros r w' Hrun. destruct (TTK_ENABLE_EIGEN b) eqn:Hgate.
    + by destruct (execute_enabled_inv b o hf w w' r Hgate Hrun)
        as (? & ? & ? & ? & ? & _ & _ & _ & _ & _ & -> & _).
    + rewrite (execute_disabled b o hf w Hgate) in Hrun. congruence.
  - intros Hgate. rewrite (execute_disabled b o hf w Hgate). by eexists.
  - intros Hgate Hwf.
    destruct (execute_well_formed b o hf w Hgate Hwf)
      as (c & sm & P & out' & _ & _ & _ & _ & _ & Hrun).
    rewrite Hrun. by eexists.
Qed.

(** ** Result materializer *)

(** C4. On a well-formed call, the output buffer receives, at every
    vertex index below [vertexNumber_], the negation of the solver's
    solution at that index, one scalar per vertex, in whatever order
    the copy loop runs; the buffer keeps its length and its slots past
    [vertexNumber_]. *)
Theorem materializer_negates_solution b o hf (w : World) :
  TTK_ENABLE_EIGEN b = true ->
  wf_call b o hf w ->
  exists idv c sm P w',
    identifiersVec hf = Some idv
    /\ constraintsVector hf idv = Some c
    /\ selectSolver b hf = Some sm
    /\ penaltyMatrix hf idv = Some P
    /\ run_execute b o hf w = Some (0, w')
    /\ length (outputScalarField w') = length (outputScalarField w)
    /\ (forall i : nat, Z.of_nat i < vertexNumber_ hf ->
          outputScalarField w' !! i
          = Some (opp (mat_coeff (snd (solve sm (lap_of hf) P c))
                         (Z.of_nat i) 0)))
    /\ (forall i : nat, vertexNumber_ hf <= Z.of_nat i ->
          outputScalarField w' !! i = outputScalarField w !! i).
Proof.
  intros Hgate Hwf.
  destruct (execute_well_formed b o hf w Hgate Hwf)
    as (c & sm & P & out' & Hidv & Hc & Hsm & HP & Hmat & Hrun).
  destruct Hwf as (_ & _ & _ & _ & _ & Hshape & Hout & Hsched).
  destruct (Hshape sm P c) as [Hcols Hrows].
  destruct (materialize_spec b o hf _ _ Hcols Hrows Hout Hsched)
    as (out'' & Hmat' & Hlen & Hlow & Hhigh).
  assert (out'' = out') as -> by congruence.
  exists (sorted_distinct (identifiers hf)), c, sm, P.
  eexists. do 4 (split; [done|]). split; [exact Hrun|].
  simpl. by repeat split.
Qed.

(** ** Penalty matrix *)

(** C5. The penalty matrix is square of dimension [vertexNumber_]; on
    the diagonal it holds [alpha = pow10(logAlpha_)] exactly at the
    distinct constrained vertex ids and zero at every other index, and
    it holds zero off the diagonal. *)
Theorem penalty_matrix_diagonal hf :
  0 <= vertexNumber_ hf ->
  (Z.to_nat (constraintNumber_ hf) <= length (sources_ hf))%nat ->
  Forall (fun id => 0 <= id < vertexNumber_ hf) (identifiers hf) ->
  exists idv P,
    identifiersVec hf = Some idv
    /\ penaltyMatrix hf idv = Some P
    /\ mat_rows P = vertexNumber_ hf
    /\ mat_cols P = vertexNumber_ hf
    /\ (forall i, i ∈ identifiers hf ->
          mat_data P !! (i, i) = Some (pow10 (logAlpha_ hf))
          /\ mat_coeff P i i = pow10 (logAlpha_ hf))
    /\ (forall i, i ∉ identifiers hf ->
          mat_data P !! (i, i) = None /\ mat_coeff P i i = zero)
    /\ (forall i j, i <> j ->
          mat_data P !! (i, j) = None /\ mat_coeff P i j = zero).
Proof.
  intros Hvn Hids Hrange.
  destruct (identifiersVec_collected hf _ Hids Hrange)
    as (Hidv & Hnd & Hr & _).
  set (idv := sorted_distinct (identifiers hf)) in *.
  destruct (penaltyMatrix_spec hf idv Hnd Hr Hvn) as (d & HP & Hd).
  exists idv, (mkSpMat (vertexNumber_ hf) (vertexNumber_ hf) d).
  do 4 (split; [done|]). unfold mat_coeff. simpl.
  split; [|split].
  - intros i Hi. rewrite Hd, decide_True; [done|].
    split; [done|by apply sorted_distinct_elem].
  - intros i Hi. rewrite Hd, decide_False; [done|].
    intros [_ Hin]. by apply Hi, sorted_distinct_elem.
  - intros i j Hij. rewrite Hd, decide_False; [done|]. by intros [? _].
Qed.

(** ** The build gate *)

(** C6. When the sparse-solver dependency is compiled out, [execute]
    returns 0 after one call to [dMsg] with the warning on the error
    stream, and the output buffer is left exactly as it was. *)
Theorem execute_without_eigen_is_noop b o hf (w : World) :
  TTK_ENABLE_EIGEN b = false ->
  exists w',
    run_execute b o hf w = Some (0, w')
    /\ outputScalarField w' = outputScalarField w
    /\ trace w' = trace w ++ [EvMsg cerr disabledMessage infoMsg].
Proof.
  intros Hgate. rewrite (execute_disabled b o hf w Hgate).
  by eexists.
Qed.

(** ** Solver status *)

(** C7. Each of the four outcome kinds has its own message, and on a
    well-formed call the routine solves once with the selected strategy,
    logs the message of whatever status code came back, and goes on to
    materialize the solution of that one solve: the events of the run
    are the opening message, one solve, the status message and the
    closing message, and the output is the materialized solution, for
    every status code. *)
Theorem solver_status_logged_without_retry b o hf (w : World) :
  TTK_ENABLE_EIGEN b = true ->
  wf_call b o hf w ->
  (infoMessage (ComputationInfo_code Success)
     = "[HarmonicField] Success!" +:+ endl
   /\ infoMessage (ComputationInfo_code NumericalIssue)
      = "[HarmonicField] Numerical Issue!" +:+ endl
   /\ infoMessage (ComputationInfo_code NoConvergence)
      = "[HarmonicField] No Convergence!" +:+ endl
   /\ infoMessage (ComputationInfo_code InvalidInput)
      = "[HarmonicField] Invalid Input!" +:+ endl)
  /\ exists idv c sm P out' pre,
       identifiersVec hf = Some idv
       /\ constraintsVector hf idv = Some c
       /\ selectSolver b hf = Some sm
       /\ penaltyMatrix hf idv = Some P
       /\ materialize b o hf (snd (solve sm (lap_of hf) P c))
            (outputScalarField w) = Some out'
       /\ pre = (if TTK_ENABLE_OPENMP b
                 then [EvSetNbThreads (threadNumber_ hf)] else [])
       /\ run_execute b o hf w
          = Some (0, mkWorld out'
               (trace w ++ pre ++
                [EvMsg cout
                   ("[HarmonicField] Beginnning computation" +:+ endl)
                   advancedInfoMsg;
                 EvSolve sm;
                 EvMsg cout
                   (infoMessage (fst (solve sm (lap_of hf) P c)))
                   advancedInfoMsg;
                 EvMsg cout (endingMessage o hf sm) infoMsg])).
Proof.
  intros Hgate Hwf. split; [by repeat split|].
  destruct (execute_well_formed b o hf w Hgate Hwf)
    as (c & sm & P & out' & Hidv & Hc & Hsm & HP & Hmat & Hrun).
  exists (sorted_distinct (identifiers hf)), c, sm, P, out'.
  eexists. do 5 (split; [done|]). split; [reflexivity|].
  exact Hrun.
Qed.

(** ** No constraints *)

(** C8. With [constraintNumber_ = 0], on any mesh, no id is collected,
    the constraint vector stores nothing and is zero at every index,
    and the penalty matrix stores nothing and is zero at every
    position. *)
Theorem no_constraints_empty_system hf :
  constraintNumber_ hf = 0 ->
  0 <= vertexNumber_ hf ->
  exists c P,
    identifiersVec hf = Some []
    /\ constraintsVector hf [] = Some c
    /\ penaltyMatrix hf [] = Some P
    /\ vec_size c = vertexNumber_ hf
    /\ vec_data c = ∅
    /\ mat_data P = ∅
    /\ (forall i, vec_coeff c i = zero)
    /\ (forall i j, mat_coeff P i j = zero).
Proof.
  intros Hcn Hvn.
  exists (mkSpVec (vertexNumber_ hf) ∅),
         (mkSpMat (vertexNumber_ hf) (vertexNumber_ hf) ∅).
  assert (Hpos : (0 <=? vertexNumber_ hf) = true) by (apply Z.leb_le; lia).
  split; [unfold identifiersVec; by rewrite Hcn|].
  split.
  { unfold constraintsVector, SpVec_new. by rewrite Hpos. }
  split.
  { unfold penaltyMatrix, SpMat_new. by rewrite Hpos. }
  do 3 (split; [done|]).
  split; intros; [unfold vec_coeff | unfold mat_coeff]; simpl;
    by rewrite lookup_empty.
Qed.

(** ** Values past the distinct ids *)

(** C10. The value buffer is read at the positions below the number [k]
    of distinct ids only: replacing it by any buffer with the same
    first [k] values changes neither the constraint vector, nor the
    penalty matrix, nor any run of [execute] (return value, output
    field and events).  When the ids read contain a duplicate, [k] is
    strictly smaller than [constraintNumber_]. *)
Theorem surplus_constraint_values_ignored hf idv sf' :
  identifiersVec hf = Some idv ->
  take (length idv) sf' = take (length idv) (constraints_ hf) ->
  identifiersVec (with_constraints hf sf') = Some idv
  /\ constraintsVector (with_constraints hf sf') idv
     = constraintsVector hf idv
  /\ penaltyMatrix (with_constraints hf sf') idv = penaltyMatrix hf idv
  /\ (forall b o (w : World),
        run_execute b o (with_constraints hf sf') w = run_execute b o hf w)
  /\ (~ NoDup (identifiers hf) ->
      (length idv < Z.to_nat (constraintNumber_ hf))%nat).
Proof.
  intros Hidv Hpre.
  pose proof (constraintsVector_prefix hf idv sf' Hpre) as Hc.
  split; [exact Hidv|]. split; [exact Hc|]. split; [done|]. split.
  - intros b o w. unfold execute.
    destruct (TTK_ENABLE_EIGEN b); [|done].
    unfold bind, lift.
    change (identifiersVec (with_constraints hf sf'))
      with (identifiersVec hf).
    destruct (TTK_ENABLE_OPENMP b); simpl; rewrite Hidv, Hc; done.
  - intros Hdup.
    pose proof (identifiersVec_spec hf) as Hspec. rewrite Hidv in Hspec.
    case_decide as Hlen; [|done]. injection Hspec as ->.
    pose proof (sorted_distinct_length_dup (identifiers hf) Hdup) as Hlt.
    unfold identifiers in Hlt. rewrite length_take in Hlt. lia.
Qed.

End Properties.

(** * The theorems at the small instance *)

(** The ids [2; 0; 2] collapse to [0; 2].  Vertex 0 receives the first
    value and vertex 2 the second, although the caller listed 7 and 9
    next to vertex 2 and 8 next to vertex 0; the third value is not
    read. *)
Example demo_identifiersVec : identifiersVec demo_field = Some [0; 2].
Proof. vm_compute. reflexivity. Qed.

Example demo_constraintsVector :
  (c ← constraintsVector demo_field [0; 2];
   Some (vec_size c, vec_data c !! 0, vec_data c !! 1, vec_data c !! 2))
  = Some (4, Some (Qz 7), None, Some (Qz 8)).
Proof. vm_compute. reflexivity. Qed.

Example demo_penaltyMatrix :
  (p ← penaltyMatrix demo_field [0; 2];
   Some (mat_coeff p 0 0, mat_coeff p 1 1, mat_coeff p 2 2, mat_coeff p 0 2))
  = Some (Qz 100000, Qz 0, Qz 100000, Qz 0).
Proof. vm_compute. reflexivity. Qed.

(** Just above the threshold the iterative strategy is selected. *)
Example demo_selectSolver_above :
  selectSolver demo_build
    (mkHarmonicField (T := QArith_base.Q) 3 249999 0 true tt [] []
       SolvingMethodUserType.Auto 5 1)
  = Some SolvingMethodType.Iterative.
Proof. vm_compute. reflexivity. Qed.

(** A run with a solver that reports [NoConvergence]: status 0, negated
    solution in the four vertex slots, fifth slot untouched. *)
Example demo_execute :
  (fun r : Z * World => (r.1, outputScalarField r.2))
    <$> execute demo_laplacian demo_laplacian
          (demo_solve (ComputationInfo_code NoConvergence))
          demo_build demo_oracle demo_field demo_world
  = Some (0, [Qz (-7); Qz 0; Qz (-8); Qz 0; Qz 1]).
Proof. vm_compute. reflexivity. Qed.

Lemma demo_call_well_formed (status : Z) :
  well_formed_call demo_laplacian demo_laplacian (demo_solve status)
    demo_build demo_oracle demo_field demo_world.
Proof.
  split; [simpl; lia|]. split; [simpl; lia|]. split; [simpl; lia|].
  split; [by vm_compute; repeat constructor|].
  split; [intros _; by vm_compute|].
  split; [intros sm P c; simpl; split; [reflexivity|lia]|].
  split; [simpl; lia|].
  unfold schedule_ok. simpl. apply (bool_decide_unpack _). by vm_compute.
Defined.

Lemma constraint_assembler_by_position_witness :
  exists idv c,
    identifiersVec demo_field = Some idv
    /\ constraintsVector demo_field idv = Some c
    /\ idv !! 1%nat = Some 2
    /\ vec_coeff c 2 = Qz 8.
Proof.
  destruct (constraint_assembler_by_position demo_field)
    as (idv & c & Hidv & Hc & _ & _ & _ & _ & Hval & _);
    [simpl; lia | simpl; lia | simpl; lia
    | vm_compute; repeat constructor; discriminate |].
  exists idv, c. split; [exact Hidv|]. split; [exact Hc|].
  assert (Hk : idv !! 1%nat = Some 2).
  { assert (Hi : identifiersVec demo_field = Some [0; 2])
      by (vm_compute; reflexivity).
    rewrite Hi in Hidv. injection Hidv as <-. reflexivity. }
  split; [exact Hk|].
  destruct (Hval 1%nat 2 Hk) as (x & Hx & _ & Hcoeff).
  rewrite Hcoeff. simpl in Hx. by injection Hx as <-.
Defined.

Lemma auto_selects_by_threshold_witness :
  exists sm, selectSolver demo_build boundary_field = Some sm
             /\ sm = SolvingMethodType.Cholesky.
Proof.
  destruct (auto_selects_by_threshold demo_build boundary_field)
    as (sm & Hsm & _ & _ & Hat);
    [reflexivity | by vm_compute |].
  exists sm. split; [exact Hsm|]. apply Hat. reflexivity.
Defined.

Lemma execute_returns_zero_witness :
  exists w',
    execute demo_laplacian demo_laplacian
      (demo_solve (ComputationInfo_code NumericalIssue))
      demo_build demo_oracle demo_field demo_world = Some (0, w').
Proof.
  destruct (execute_returns_zero demo_laplacian demo_laplacian
              (demo_solve (ComputationInfo_code NumericalIssue))
              demo_build demo_oracle demo_field demo_world)
    as (_ & _ & Hwf).
  apply Hwf; [reflexivity|apply demo_call_well_formed].
Defined.

Lemma materializer_negates_solution_witness :
  exists w',
    execute demo_laplacian demo_laplacian (demo_solve 0)
      demo_build demo_oracle demo_field demo_world = Some (0, w')
    /\ length (outputScalarField w') = 5%nat.
Proof.
  destruct (materializer_negates_solution demo_laplacian demo_laplacian
              (demo_solve 0) demo_build demo_oracle demo_field demo_world)
    as (idv & c & sm & P & w' & _ & _ & _ & _ & Hrun & Hlen & _);
    [reflexivity | apply demo_call_well_formed |].
  exists w'. split; [exact Hrun|exact Hlen].
Defined.

Lemma penalty_matrix_diagonal_witness :
  exists idv P,
    identifiersVec demo_field = Some idv
    /\ penaltyMatrix demo_field idv = Some P
    /\ mat_coeff P 2 2 = Qz 100000.
Proof.
  destruct (penalty_matrix_diagonal demo_field)
    as (idv & P & Hidv & HP & _ & _ & Hdiag & _);
    [simpl; lia | simpl; lia
    | vm_compute; repeat constructor; discriminate |].
  exists idv, P. split; [exact Hidv|]. split; [exact HP|].
  destruct (Hdiag 2) as [_ Hcoeff]; [by vm_compute; left|].
  rewrite Hcoeff. reflexivity.
Defined.

Lemma execute_without_eigen_is_noop_witness :
  exists w',
    execute demo_laplacian demo_laplacian (demo_solve 0)
      bare_build demo_oracle demo_field demo_world = Some (0, w')
    /\ outputScalarField w' = outputScalarField demo_world.
Proof.
  destruct (execute_without_eigen_is_noop demo_laplacian demo_laplacian
              (demo_solve 0) bare_build demo_oracle demo_field demo_world)
    as (w' & Hrun & Hout & _); [reflexivity|].
  exists w'. split; [exact Hrun|exact Hout].
Defined.

Lemma solver_status_logged_without_retry_witness :
  exists out' events,
    execute demo_laplacian demo_laplacian
      (demo_solve (ComputationInfo_code NoConvergence))
      demo_build demo_oracle demo_field demo_world
    = Some (0, mkWorld out' events).
Proof.
  destruct (solver_status_logged_without_retry demo_laplacian
              demo_laplacian
              (demo_solve (ComputationInfo_code NoConvergence))
              demo_build demo_oracle demo_field demo_world)
    as (_ & idv & c & sm & P & out' & pre & _ & _ & _ & _ & _ & _ & Hrun);
    [reflexivity | apply demo_call_well_formed |].
  exists out'. eexists. exact Hrun.
Defined.

Lemma no_constraints_empty_system_witness :
  exists (c : SpVec QArith_base.Q) (P : SpMat QArith_base.Q),
    constraintsVector free_field [] = Some c
    /\ penaltyMatrix free_field [] = Some P
    /\ vec_data c = ∅
    /\ mat_data P = ∅.
Proof.
  destruct (no_constraints_empty_system free_field)
    as (c & P & _ & Hc & HP & _ & Hvc & HvP & _);
    [reflexivity | simpl; lia |].
  exists c, P. by repeat split.
Defined.

Lemma surplus_constraint_values_ignored_witness :
  execute demo_laplacian demo_laplacian (demo_solve 0)
    demo_build demo_oracle
    (with_constraints demo_field [Qz 7; Qz 8; Qz 100]) demo_world
  = execute demo_laplacian demo_laplacian (demo_solve 0)
      demo_build demo_oracle demo_field demo_world.
Proof.
  destruct (surplus_constraint_values_ignored demo_laplacian
              demo_laplacian (demo_solve 0) demo_field [0; 2]
              [Qz 7; Qz 8; Qz 100])
    as (_ & _ & _ & Hrun & _);
    [by vm_compute | reflexivity |].
  apply Hrun.
Defined.

(** * Further properties of the routine *)

(** ** The ordered set again *)

(** A strictly ascending sequence is determined by its elements. *)
Lemma StronglySorted_lt_unique (l1 l2 : list Z) :
  StronglySorted Z.lt l1 ->
  StronglySorted Z.lt l2 ->
  (forall x, x ∈ l1 <-> x ∈ l2) ->
  l1 = l2.
Proof.
  intros H1. revert l2.
  induction H1 as [|a l1 Hs1 IH Ha]; intros l2 H2 Heq.
  - destruct l2 as [|b l2]; [done|].
    exfalso. apply (elem_of_nil b), Heq. left.
  - destruct H2 as [|b l2 Hs2 Hb].
    + exfalso. apply (elem_of_nil a), Heq. left.
    + rewrite Forall_forall in Ha, Hb.
      assert (a = b) as ->.
      { assert (Hab : a ∈ b :: l2) by (apply Heq; left).
        assert (Hba : b ∈ a :: l1) by (apply Heq; left).
        apply elem_of_cons in Hab as [?|Hab]; [done|].
        apply elem_of_cons in Hba as [?|Hba]; [done|].
        specialize (Ha b Hba). specialize (Hb a Hab). lia. }
      f_equal. apply IH; [done|]. intros x. split; intros Hx.
      * assert (Hx' : x ∈ b :: l2) by (apply Heq; by right).
        apply elem_of_cons in Hx' as [->|?]; [|done].
        specialize (Ha b Hx). lia.
      * assert (Hx' : x ∈ b :: l1) by (apply Heq; by right).
        apply elem_of_cons in Hx' as [->|?]; [|done].
        specialize (Hb b Hx). lia.
Qed.

Lemma sorted_distinct_fixpoint (l : list Z) :
  StronglySorted Z.lt l -> sorted_distinct l = l.
Proof.
  intros Hl. apply StronglySorted_lt_unique;
    [apply sorted_distinct_sorted | done | apply sorted_distinct_elem].
Qed.

Lemma sorted_distinct_same_elements (l1 l2 : list Z) :
  (forall x, x ∈ l1 <-> x ∈ l2) ->
  sorted_distinct l1 = sorted_distinct l2.
Proof.
  intros Heq. apply StronglySorted_lt_unique;
    [apply sorted_distinct_sorted..|].
  intros x. by rewrite !sorted_distinct_elem.
Qed.

Lemma sorted_distinct_length_NoDup (l : list Z) :
  length (sorted_distinct l) = length l <-> NoDup l.
Proof.
  split.
  - intros Hlen. destruct (decide (NoDup l)) as [|Hdup]; [done|].
    pose proof (sorted_distinct_length_dup l Hdup). lia.
  - intros Hnd. apply Permutation_length, NoDup_Permutation;
      [apply sorted_distinct_NoDup | done | apply sorted_distinct_elem].
Qed.

Section Extensions.
Context {T : Type} `{Scalar T} {Triangulation : Type}.
Implicit Types (hf : HarmonicField (T := T) Triangulation).
Implicit Types (idv : list Z) (sf out : list T).

(** ** Using the assembler safely *)

(** X1. When the ids read are already strictly ascending, the id list is
    taken as it is and every id receives the value listed next to it:
    position and id agree. *)
Theorem ascending_ids_keep_their_values hf :
  0 <= vertexNumber_ hf ->
  (Z.to_nat (constraintNumber_ hf) <= length (sources_ hf))%nat ->
  (Z.to_nat (constraintNumber_ hf) <= length (constraints_ hf))%nat ->
  Forall (fun id => 0 <= id < vertexNumber_ hf) (identifiers hf) ->
  StronglySorted Z.lt (identifiers hf) ->
  exists c,
    identifiersVec hf = Some (identifiers hf)
    /\ constraintsVector hf (identifiers hf) = Some c
    /\ forall (k : nat) id,
         (k < Z.to_nat (constraintNumber_ hf))%nat ->
         sources_ hf !! k = Some id ->
         exists x, constraints_ hf !! k = Some x /\ vec_coeff c id = x.
Proof.
  intros Hvn Hids Hsf Hrange Hasc.
  destruct (identifiersVec_collected hf _ Hids Hrange)
    as (Hidv & Hnd & Hr & Hcard).
  rewrite (sorted_distinct_fixpoint _ Hasc) in Hidv, Hnd, Hr, Hcard.
  assert (Hlen : (length (identifiers hf) <= length (constraints_ hf))%nat)
    by lia.
  destruct (constraintsVector_spec hf _ Hnd Hr Hlen Hvn)
    as (d & Hc & Hset & _).
  exists (mkSpVec (vertexNumber_ hf) d).
  split; [done|]. split; [done|].
  intros k id Hk Hid.
  destruct (lookup_lt_is_Some_2 (constraints_ hf) k) as [x Hx]; [lia|].
  exists x. split; [done|].
  assert (Hid' : identifiers hf !! k = Some id).
  { unfold identifiers. by rewrite lookup_take_lt. }
  unfold vec_coeff. simpl. by rewrite (Hset k id Hid'), Hx.
Qed.

(** X2. The distinct ids, and with them the penalty matrix, depend on
    which vertices are listed only: listing the same vertices in another
    order, or with other repetitions, gives the same [identifiersVec] and
    the same penalty matrix. *)
Theorem constrained_vertices_as_a_set hf hf' :
  (Z.to_nat (constraintNumber_ hf) <= length (sources_ hf))%nat ->
  (Z.to_nat (constraintNumber_ hf') <= length (sources_ hf'))%nat ->
  (forall id, id ∈ identifiers hf <-> id ∈ identifiers hf') ->
  vertexNumber_ hf = vertexNumber_ hf' ->
  logAlpha_ hf = logAlpha_ hf' ->
  exists idv,
    identifiersVec hf = Some idv
    /\ identifiersVec hf' = Some idv
    /\ penaltyMatrix hf idv = penaltyMatrix hf' idv.
Proof.
  intros Hids Hids' Hsame Hvn Hla.
  exists (sorted_distinct (identifiers hf)).
  rewrite !identifiersVec_spec.
  destruct (decide (Z.to_nat (constraintNumber_ hf)
                    <= length (sources_ hf))%nat); [|done].
  destruct (decide (Z.to_nat (constraintNumber_ hf')
                    <= length (sources_ hf'))%nat); [|done].
  split; [done|]. split.
  - f_equal. symmetry. by apply sorted_distinct_same_elements.
  - unfold penaltyMatrix, penaltyTriplets, alpha. by rewrite Hvn, Hla.
Qed.

(** X3. When [constraintNumber_] is a count (not negative), the number
    of distinct ids is at most [constraintNumber_], and it is
    [constraintNumber_] exactly when the ids read are pairwise
    distinct. *)
Theorem distinct_count_and_repetition hf idv :
  0 <= constraintNumber_ hf ->
  identifiersVec hf = Some idv ->
  Z.of_nat (length idv) <= constraintNumber_ hf
  /\ (Z.of_nat (length idv) = constraintNumber_ hf
      <-> NoDup (identifiers hf)).
Proof.
  intros Hcn Hidv.
  pose proof (identifiersVec_spec hf) as Hspec. rewrite Hidv in Hspec.
  case_decide as Hlen; [|done]. injection Hspec as ->.
  assert (Hl : Z.of_nat (length (identifiers hf)) = constraintNumber_ hf).
  { unfold identifiers. rewrite length_take. lia. }
  fold (identifiers hf). rewrite <- Hl. split.
  - pose proof (sorted_distinct_length (identifiers hf)). lia.
  - rewrite <- sorted_distinct_length_NoDup. lia.
Qed.

(** X4. The constraint vector and the penalty matrix store one entry per
    distinct id: as many entries as [identifiersVec] has elements. *)
Theorem one_stored_entry_per_distinct_id hf :
  0 <= vertexNumber_ hf ->
  (Z.to_nat (constraintNumber_ hf) <= length (sources_ hf))%nat ->
  (Z.to_nat (constraintNumber_ hf) <= length (constraints_ hf))%nat ->
  Forall (fun id => 0 <= id < vertexNumber_ hf) (identifiers hf) ->
  exists idv c P,
    identifiersVec hf = Some idv
    /\ constraintsVector hf idv = Some c
    /\ penaltyMatrix hf idv = Some P
    /\ size (vec_data c) = length idv
    /\ size (mat_data P) = length idv.
Proof.
  intros Hvn Hids Hsf Hrange.
  destruct (identifiersVec_collected hf _ Hids Hrange)
    as (Hidv & Hnd & Hr & Hcard).
  set (idv := sorted_distinct (identifiers hf)) in *.
  assert (Hlen : (length idv <= length (constraints_ hf))%nat) by lia.
  destruct (constraintsVector_spec hf idv Hnd Hr Hlen Hvn)
    as (dc & Hc & Hset & Hfree).
  destruct (penaltyMatrix_spec hf idv Hnd Hr Hvn) as (dp & HP & Hdp).
  exists idv, (mkSpVec (vertexNumber_ hf) dc),
    (mkSpMat (vertexNumber_ hf) (vertexNumber_ hf) dp).
  do 3 (split; [done|]). simpl. split.
  - rewrite <- (size_dom (D := gset Z)).
    rewrite <- (size_list_to_set (C := gset Z) idv Hnd). f_equal.
    apply set_eq. intros i. rewrite elem_of_dom, elem_of_list_to_set.
    split.
    + intros Hi. destruct (decide (i ∈ idv)) as [|Hno]; [done|].
      rewrite (Hfree i Hno) in Hi. by destruct Hi.
    + intros Hi. apply list_elem_of_lookup in Hi as [k Hk].
      rewrite (Hset k i Hk). apply lookup_lt_is_Some_2.
      apply lookup_lt_Some in Hk. lia.
  - rewrite <- (size_dom (D := gset (Z * Z))).
    rewrite <- (length_fmap (fun i : Z => (i, i)) idv).
    rewrite <- (size_list_to_set (C := gset (Z * Z))).
    2: { apply NoDup_fmap_2; [|done]. by intros i j [= ->]. }
    f_equal. apply set_eq. intros [i j].
    rewrite elem_of_dom, elem_of_list_to_set, list_elem_of_fmap, Hdp.
    split.
    + case_decide as Hd; [|by intros []].
      destruct Hd as [-> Hin]. intros _. by exists j.
    + intros (k & [= -> ->] & Hin). rewrite decide_True; [by eexists|done].
Qed.

(** X5. Exactly the values at the positions below the number of distinct
    ids matter: two value buffers give the same constraint vector if and
    only if they agree on these positions. *)
Theorem constraint_vector_reads_the_first_values hf idv sf' :
  0 <= vertexNumber_ hf ->
  identifiersVec hf = Some idv ->
  Forall (fun id => 0 <= id < vertexNumber_ hf) idv ->
  (length idv <= length (constraints_ hf))%nat ->
  (length idv <= length sf')%nat ->
  is_Some (constraintsVector hf idv)
  /\ (constraintsVector (with_constraints hf sf') idv
      = constraintsVector hf idv
      <-> take (length idv) sf' = take (length idv) (constraints_ hf)).
Proof.
  intros Hvn Hidv Hr Hlen Hlen'.
  assert (Hnd : NoDup idv).
  { rewrite (identifiersVec_Some hf idv Hidv). apply sorted_distinct_NoDup. }
  destruct (constraintsVector_spec hf idv Hnd Hr Hlen Hvn)
    as (d & Hc & Hset & _).
  destruct (constraintsVector_spec (with_constraints hf sf') idv Hnd Hr
              Hlen' Hvn) as (d' & Hc' & Hset' & _).
  split; [by eexists|]. split.
  - rewrite Hc, Hc'. simpl. intros [= Hd].
    apply list_eq. intros j.
    destruct (decide (j < length idv)%nat) as [Hj|Hj].
    + rewrite !lookup_take_lt by done.
      destruct (lookup_lt_is_Some_2 idv j Hj) as [id Hid].
      pose proof (Hset j id Hid) as E. pose proof (Hset' j id Hid) as E'.
      simpl in E'. by rewrite <- E, <- E', Hd.
    + by rewrite !lookup_take_ge by lia.
  - apply constraintsVector_prefix.
Qed.

(** ** Strategy selection *)

(** X6. The size heuristic is monotone: once a mesh is large enough for
    the iterative strategy, every mesh with a size score at least as
    large gets the iterative strategy too. *)
Theorem larger_mesh_stays_iterative (b : Build) hf hf' :
  score_fits b hf ->
  score_fits b hf' ->
  sizeScore hf <= sizeScore hf' ->
  findBestSolver b hf = Some SolvingMethodType.Iterative ->
  findBestSolver b hf' = Some SolvingMethodType.Iterative.
Proof.
  unfold sizeScore. intros Hfits Hfits' Hle.
  rewrite (findBestSolver_fits b hf Hfits).
  rewrite (findBestSolver_fits b hf' Hfits').
  destruct (Z.gtb_spec (2 * edgeNumber_ hf + vertexNumber_ hf) 500000);
    [|done].
  destruct (Z.gtb_spec (2 * edgeNumber_ hf' + vertexNumber_ hf') 500000);
    [done|lia].
Qed.

(** ** Status message *)

(** X7. The status message identifies the outcome: the four outcome
    kinds have non-empty, pairwise different messages, and a status code
    that is none of the four gets the empty message. *)
Theorem status_message_identifies_outcome :
  (forall k1 k2 : ComputationInfo,
     infoMessage (ComputationInfo_code k1)
     = infoMessage (ComputationInfo_code k2) -> k1 = k2)
  /\ (forall k : ComputationInfo,
        infoMessage (ComputationInfo_code k) <> EmptyString)
  /\ (forall res : Z,
        (forall k : ComputationInfo, res <> ComputationInfo_code k) ->
        infoMessage res = EmptyString).
Proof.
  split; [|split].
  - intros [] []; vm_compute; congruence.
  - intros []; vm_compute; congruence.
  - intros res Hres. unfold infoMessage.
    destruct (Z.eqb_spec res (ComputationInfo_code Success)) as [E|_];
      [by destruct (Hres Success)|].
    destruct (Z.eqb_spec res (ComputationInfo_code NumericalIssue))
      as [E|_]; [by destruct (Hres NumericalIssue)|].
    destruct (Z.eqb_spec res (ComputationInfo_code NoConvergence))
      as [E|_]; [by destruct (Hres NoConvergence)|].
    destruct (Z.eqb_spec res (ComputationInfo_code InvalidInput))
      as [E|_]; [by destruct (Hres InvalidInput)|].
    done.
Qed.

(** ** Runs *)

Variable compute_laplacian_with_cotan_weights :
  Triangulation -> Z -> Z -> SpMat T.
Variable compute_laplacian : Triangulation -> Z -> Z -> SpMat T.
Variable solve :
  SolvingMethodType.t -> SpMat T -> SpMat T -> SpVec T -> Z * SpMat T.

Local Abbreviation run_execute :=
  (execute compute_laplacian_with_cotan_weights compute_laplacian solve).
Local Abbreviation lap_of :=
  (laplacian compute_laplacian_with_cotan_weights compute_laplacian).
Local Abbreviation wf_call :=
  (well_formed_call compute_laplacian_with_cotan_weights
     compute_laplacian solve).
Local Abbreviation shape_ok :=
  (solution_shape_ok compute_laplacian_with_cotan_weights
     compute_laplacian solve).

(** X8. A strategy requested explicitly is the one the system is solved
    with, whatever the size of the mesh: the size score is not computed,
    so that it does not have to fit the id type. *)
Theorem explicit_strategy_is_used b o hf (w : World)
    (sm : SolvingMethodType.t) :
  TTK_ENABLE_EIGEN b = true ->
  (solvingMethod_ hf = SolvingMethodUserType.Cholesky
   /\ sm = SolvingMethodType.Cholesky)
  \/ (solvingMethod_ hf = SolvingMethodUserType.Iterative
      /\ sm = SolvingMethodType.Iterative) ->
  wf_call b o hf w ->
  selectSolver b hf = Some sm
  /\ exists c P out',
       run_execute b o hf w
       = Some (0, mkWorld out'
                    (trace w ++ enabled_events b o hf sm
                                  (fst (solve sm (lap_of hf) P c)))).
Proof.
  intros Hgate Hreq Hwf.
  assert (Hsel : selectSolver b hf = Some sm).
  { unfold selectSolver. by destruct Hreq as [[-> ->]|[-> ->]]. }
  split; [exact Hsel|].
  destruct (execute_well_formed compute_laplacian_with_cotan_weights
              compute_laplacian solve b o hf w Hgate Hwf)
    as (c & sm' & P & out' & _ & _ & Hsm & _ & _ & Hrun).
  assert (sm' = sm) as -> by congruence.
  by exists c, P, out'.
Qed.

(** X9. On a mesh without vertices a well-formed call solves and logs as
    usual, and leaves the output buffer exactly as it was. *)
Theorem empty_mesh_leaves_output b o hf (w : World) :
  TTK_ENABLE_EIGEN b = true ->
  vertexNumber_ hf = 0 ->
  wf_call b o hf w ->
  exists w',
    run_execute b o hf w = Some (0, w')
    /\ outputScalarField w' = outputScalarField w
    /\ exists sm, EvSolve sm ∈ trace w'.
Proof.
  intros Hgate Hvn Hwf.
  destruct (execute_well_formed compute_laplacian_with_cotan_weights
              compute_laplacian solve b o hf w Hgate Hwf)
    as (c & sm & P & out' & _ & _ & _ & _ & Hmat & Hrun).
  destruct Hwf as (_ & _ & _ & _ & _ & Hshape & Hout & Hsched).
  destruct (Hshape sm P c) as [Hcols Hrows].
  destruct (materialize_spec b o hf _ _ Hcols Hrows Hout Hsched)
    as (out'' & Hmat' & _ & _ & Hhigh).
  assert (out'' = out') as -> by congruence.
  eexists. split; [exact Hrun|]. simpl. split.
  - apply list_eq. intros i. apply Hhigh. lia.
  - exists sm. unfold enabled_events.
    rewrite !elem_of_app, !elem_of_cons. tauto.
Qed.

(** X10. With a [constraintNumber_] that is zero or negative the id and
    value buffers are never read: no id is collected and the run is the
    same whatever these two pointers designate. *)
Theorem no_constraints_buffers_not_read b o hf (ids : list Z) sf
    (w : World) :
  constraintNumber_ hf <= 0 ->
  identifiersVec (with_buffers hf ids sf) = Some []
  /\ run_execute b o (with_buffers hf ids sf) w = run_execute b o hf w.
Proof.
  intros Hcn.
  assert (Hn : Z.to_nat (constraintNumber_ hf) = 0%nat) by lia.
  assert (Hidv : forall hf0 : HarmonicField (T := T) Triangulation,
             constraintNumber_ hf0 = constraintNumber_ hf ->
             identifiersVec hf0 = Some []).
  { intros hf0 Heq. unfold identifiersVec. by rewrite Heq, Hn. }
  split; [by apply Hidv|].
  unfold execute. destruct (TTK_ENABLE_EIGEN b); [|done].
  unfold bind, lift.
  rewrite (Hidv (with_buffers hf ids sf)), (Hidv hf) by done.
  destruct (TTK_ENABLE_OPENMP b); reflexivity.
Qed.

(** X11. An object fresh from the constructor has no mesh and no
    constraint: in [Auto] mode its size score is 0, so that the direct
    strategy is selected, and a run on it writes nothing to the output
    buffer. *)
Theorem fresh_object_runs_harmlessly b o (null : Triangulation)
    (threads : Z) (w : World) :
  TTK_ENABLE_EIGEN b = true ->
  500000 <= SimplexId_max b ->
  (TTK_ENABLE_OPENMP b = true -> omp_schedule o = []) ->
  shape_ok (HarmonicField_new (T := T) null threads) ->
  selectSolver b (HarmonicField_new (T := T) null threads)
  = Some SolvingMethodType.Cholesky
  /\ exists w',
       run_execute b o (HarmonicField_new (T := T) null threads) w = Some (0, w')
       /\ outputScalarField w' = outputScalarField w
       /\ EvSolve SolvingMethodType.Cholesky ∈ trace w'.
Proof.
  intros Hgate Hmax Hsched Hshape.
  set (hf := HarmonicField_new (T := T) null threads) in *.
  assert (Hfits : score_fits b hf) by (unfold score_fits; simpl; lia).
  assert (Hsel : selectSolver b hf = Some SolvingMethodType.Cholesky).
  { unfold selectSolver. simpl. by rewrite (findBestSolver_fits b hf Hfits). }
  split; [exact Hsel|].
  assert (Hwf : wf_call b o hf w).
  { split; [simpl; lia|]. split; [simpl; lia|]. split; [simpl; lia|].
    split; [by constructor|]. split; [done|]. split; [done|].
    split; [simpl; lia|].
    unfold schedule_ok, copy_iterations. simpl.
    destruct (TTK_ENABLE_OPENMP b); [by rewrite Hsched|done]. }
  destruct (execute_well_formed compute_laplacian_with_cotan_weights
              compute_laplacian solve b o hf w Hgate Hwf)
    as (c & sm & P & out' & _ & _ & Hsm & _ & Hmat & Hrun).
  rewrite Hsel in Hsm. injection Hsm as <-.
  destruct Hwf as (_ & _ & _ & _ & _ & _ & Hout & Hok).
  destruct (Hshape SolvingMethodType.Cholesky P c) as [Hcols Hrows].
  destruct (materialize_spec b o hf _ _ Hcols Hrows Hout Hok)
    as (out'' & Hmat' & _ & _ & Hhigh).
  assert (out'' = out') as -> by congruence.
  eexists. split; [exact Hrun|]. simpl. split.
  - apply list_eq. intros i. apply Hhigh. simpl. lia.
  - unfold enabled_events. rewrite !elem_of_app, !elem_of_cons. tauto.
Qed.

End Extensions.

(** X12. The Laplacian builder that [useCotanWeights_] does not select is
    not consulted: a run is the same whatever that builder would
    answer. *)
Theorem unselected_laplacian_builder_not_consulted
    {T : Type} `{Scalar T} {Triangulation : Type}
    (cotan cotan' uniform uniform' : Triangulation -> Z -> Z -> SpMat T)
    (solve : SolvingMethodType.t -> SpMat T -> SpMat T -> SpVec T
             -> Z * SpMat T)
    (b : Build) (o : Oracle) (hf : HarmonicField (T := T) Triangulation)
    (w : World) :
  (useCotanWeights_ hf = true ->
   execute cotan uniform solve b o hf w
   = execute cotan uniform' solve b o hf w)
  /\ (useCotanWeights_ hf = false ->
      execute cotan uniform solve b o hf w
      = execute cotan' uniform solve b o hf w).
Proof.
  split; intros Hflag; unfold execute, laplacian; by rewrite Hflag.
Qed.

(** * The further properties at the small instances *)

Lemma ascending_ids_keep_their_values_witness :
  exists c : SpVec QArith_base.Q,
    constraintsVector ascending_field [0; 1; 3] = Some c
    /\ vec_coeff c 3 = Qz 9.
Proof.
  destruct (ascending_ids_keep_their_values ascending_field)
    as (c & _ & Hc & Hval);
    [simpl; lia | simpl; lia | simpl; lia
    | vm_compute; repeat constructor; discriminate
    | vm_compute; repeat constructor |].
  exists c. split; [exact Hc|].
  destruct (Hval 2%nat 3) as (x & Hx & Hcoeff);
    [simpl; lia | reflexivity |].
  rewrite Hcoeff. simpl in Hx. by injection Hx as <-.
Defined.

Lemma constrained_vertices_as_a_set_witness :
  exists idv,
    identifiersVec demo_field = Some idv
    /\ identifiersVec shuffled_field = Some idv
    /\ penaltyMatrix demo_field idv = penaltyMatrix shuffled_field idv.
Proof.
  apply (constrained_vertices_as_a_set demo_field shuffled_field);
    [simpl; lia | simpl; lia | | reflexivity | reflexivity].
  intros id. unfold identifiers. simpl.
  rewrite !elem_of_cons, !elem_of_nil. tauto.
Defined.

Lemma distinct_count_and_repetition_witness :
  Z.of_nat (length [0; 2]) <= constraintNumber_ demo_field
  /\ (Z.of_nat (length [0; 2]) = constraintNumber_ demo_field
      <-> NoDup (identifiers demo_field)).
Proof.
  apply (distinct_count_and_repetition demo_field [0; 2]);
    [simpl; lia | vm_compute; reflexivity].
Defined.

Lemma one_stored_entry_per_distinct_id_witness :
  exists idv (c : SpVec QArith_base.Q) (P : SpMat QArith_base.Q),
    identifiersVec demo_field = Some idv
    /\ constraintsVector demo_field idv = Some c
    /\ penaltyMatrix demo_field idv = Some P
    /\ size (vec_data c) = length idv
    /\ size (mat_data P) = length idv.
Proof.
  apply (one_stored_entry_per_distinct_id demo_field);
    [simpl; lia | simpl; lia | simpl; lia
    | vm_compute; repeat constructor; discriminate].
Defined.

Lemma constraint_vector_reads_the_first_values_witness :
  constraintsVector (with_constraints demo_field [Qz 7; Qz 8; Qz 100])
    [0; 2]
  = constraintsVector demo_field [0; 2].
Proof.
  destruct (constraint_vector_reads_the_first_values demo_field [0; 2]
              [Qz 7; Qz 8; Qz 100]) as [_ Hiff];
    [simpl; lia | vm_compute; reflexivity
    | repeat constructor; simpl; lia | simpl; lia | simpl; lia |].
  apply Hiff. reflexivity.
Defined.

Lemma larger_mesh_stays_iterative_witness :
  findBestSolver demo_build larger_field
  = Some SolvingMethodType.Iterative.
Proof.
  apply (larger_mesh_stays_iterative demo_build large_field larger_field);
    [by vm_compute | by vm_compute | by vm_compute
    | vm_compute; reflexivity].
Defined.

Lemma wide_call_well_formed :
  well_formed_call demo_laplacian demo_laplacian (demo_solve 0)
    demo_build demo_oracle wide_field demo_world.
Proof.
  split; [simpl; lia|]. split; [simpl; lia|]. split; [simpl; lia|].
  split; [by vm_compute; repeat constructor|].
  split; [intros Hauto; discriminate Hauto|].
  split; [intros sm P c; simpl; split; [reflexivity|lia]|].
  split; [simpl; lia|].
  unfold schedule_ok. simpl. apply (bool_decide_unpack _). by vm_compute.
Defined.

Lemma explicit_strategy_is_used_witness :
  selectSolver demo_build wide_field = Some SolvingMethodType.Cholesky
  /\ findBestSolver demo_build wide_field = None.
Proof.
  destruct (explicit_strategy_is_used demo_laplacian demo_laplacian
              (demo_solve 0) demo_build demo_oracle wide_field demo_world
              SolvingMethodType.Cholesky) as [Hsel _];
    [reflexivity | left; split; reflexivity | apply wide_call_well_formed |].
  split; [exact Hsel|]. vm_compute. reflexivity.
Defined.

Lemma empty_call_well_formed :
  well_formed_call demo_laplacian demo_laplacian (demo_solve 0)
    serial_build demo_oracle empty_field demo_world.
Proof.
  split; [simpl; lia|]. split; [simpl; lia|]. split; [simpl; lia|].
  split; [by constructor|].
  split; [intros Hauto; discriminate Hauto|].
  split; [intros sm P c; simpl; split; [reflexivity|lia]|].
  split; [simpl; lia|].
  unfold schedule_ok. reflexivity.
Defined.

Lemma empty_mesh_leaves_output_witness :
  exists w',
    execute demo_laplacian demo_laplacian (demo_solve 0) serial_build
      demo_oracle empty_field demo_world = Some (0, w')
    /\ outputScalarField w' = outputScalarField demo_world.
Proof.
  destruct (empty_mesh_leaves_output demo_laplacian demo_laplacian
              (demo_solve 0) serial_build demo_oracle empty_field
              demo_world) as (w' & Hrun & Hout & _);
    [reflexivity | reflexivity | apply empty_call_well_formed |].
  exists w'. by split.
Defined.

Lemma no_constraints_buffers_not_read_witness :
  execute demo_laplacian demo_laplacian (demo_solve 0) demo_build
    demo_oracle (with_buffers free_field [9; 9] [Qz 3]) demo_world
  = execute demo_laplacian demo_laplacian (demo_solve 0) demo_build
      demo_oracle free_field demo_world.
Proof.
  destruct (no_constraints_buffers_not_read demo_laplacian demo_laplacian
              (demo_solve 0) demo_build demo_oracle free_field [9; 9]
              [Qz 3] demo_world) as [_ Hrun]; [simpl; lia|].
  exact Hrun.
Defined.

Lemma fresh_object_runs_harmlessly_witness :
  exists w',
    execute demo_laplacian demo_laplacian (demo_solve 0) serial_build
      demo_oracle (HarmonicField_new tt 1) demo_world = Some (0, w')
    /\ outputScalarField w' = outputScalarField demo_world.
Proof.
  destruct (fresh_object_runs_harmlessly demo_laplacian demo_laplacian
              (demo_solve 0) serial_build demo_oracle tt 1 demo_world)
    as (_ & w' & Hrun & Hout & _);
    [reflexivity | simpl; lia | intros Homp; discriminate Homp
    | intros sm P c; simpl; split; [reflexivity|lia] |].
  exists w'. by split.
Defined.

Lemma unselected_laplacian_builder_not_consulted_witness :
  execute demo_laplacian demo_laplacian (demo_solve 0) demo_build
    demo_oracle demo_field demo_world
  = execute demo_laplacian (fun _ v e => mkSpMat e v ∅) (demo_solve 0)
      demo_build demo_oracle demo_field demo_world.
Proof.
  destruct (unselected_laplacian_builder_not_consulted demo_laplacian
              demo_laplacian demo_laplacian (fun _ v e => mkSpMat e v ∅)
              (demo_solve 0) demo_build demo_oracle demo_field demo_world)
    as [Hcotan _].
  apply Hcotan. reflexivity.
Defined.
